(** * gws: WebSocket write path, close/error state machine and broadcaster

    Shallow embedding of [conn.go] and [writer.go].

    - Bytes are [Byte.byte]; Go's [int], [uint16], [uint32] and [int64] are
      [Z], with the wrap-around of the fixed-width types written out.
    - A connection is a record holding its immutable configuration and its
      mutable [closed] flag and write queue.  Everything the connection shares
      with the rest of the process (the socket, the buffer pool, the
      application's callbacks) is an explicit environment [Env] that records
      a trace of events.
    - The collaborators that live outside these two files (compressor,
      socket, random mask keys, pool tiers, error texts) are fields of the
      class [Externals]. *)

From Stdlib Require Import ZArith List Bool Lia String.
From Stdlib.Strings Require Import Byte.
Import ListNotations.
Local Open Scope Z_scope.

Set Implicit Arguments.

(** ** Bytes and fixed-width integers *)

Definition Z_of_byte (b : byte) : Z := Z.of_N (Byte.to_N b).

Definition byte_of_Z (z : Z) : byte :=
  match Byte.of_N (Z.to_N (z mod 256)) with
  | Some b => b
  | None => x00
  end.

Definition len {A : Type} (l : list A) : Z := Z.of_nat (List.length l).

Definition wrap16 (z : Z) : Z := z mod 65536.

(** [int64] wrap-around: the value in [-2^63, 2^63) congruent to [z]. *)
Definition wrap64 (z : Z) : Z := (z + 2 ^ 63) mod 2 ^ 64 - 2 ^ 63.

(** [binary.BigEndian.Uint16] on the first two bytes of a slice. *)
Definition BigEndian_Uint16 (b : list byte) : Z :=
  match b with
  | b0 :: b1 :: _ => Z.lor (Z.shiftl (Z_of_byte b0) 8) (Z_of_byte b1)
  | _ => 0
  end.

(** [binary.BigEndian.PutUint16]. *)
Definition BigEndian_PutUint16 (v : Z) : list byte :=
  [byte_of_Z (Z.shiftr v 8); byte_of_Z v].

(** [binary.BigEndian.PutUint64]. *)
Definition BigEndian_PutUint64 (v : Z) : list byte :=
  map (fun i => byte_of_Z (Z.shiftr v (8 * i))) [7; 6; 5; 4; 3; 2; 1; 0].

(** ** [unicode/utf8.Valid] *)

Definition in_range (lo hi : Z) (b : byte) : bool :=
  (lo <=? Z_of_byte b) && (Z_of_byte b <=? hi).

(** Continuation byte, the default accept range [0x80, 0xBF]. *)
Definition is_cont (b : byte) : bool := in_range 0x80 0xBF b.

(** Go decodes from the leading byte the sequence length and the accept
    range of the second byte; any other leading byte is invalid. *)
Fixpoint utf8_Valid (p : list byte) : bool :=
  match p with
  | [] => true
  | b0 :: r0 =>
      if Z_of_byte b0 <? 0x80 then utf8_Valid r0
      else if in_range 0xC2 0xDF b0 then
        match r0 with
        | b1 :: r1 => is_cont b1 && utf8_Valid r1
        | _ => false
        end
      else if in_range 0xE0 0xEF b0 then
        match r0 with
        | b1 :: b2 :: r2 =>
            let lo := if Z_of_byte b0 =? 0xE0 then 0xA0 else 0x80 in
            let hi := if Z_of_byte b0 =? 0xED then 0x9F else 0xBF in
            in_range lo hi b1 && is_cont b2 && utf8_Valid r2
        | _ => false
        end
      else if in_range 0xF0 0xF4 b0 then
        match r0 with
        | b1 :: b2 :: b3 :: r3 =>
            let lo := if Z_of_byte b0 =? 0xF0 then 0x90 else 0x80 in
            let hi := if Z_of_byte b0 =? 0xF4 then 0x8F else 0xBF in
            in_range lo hi b1 && is_cont b2 && is_cont b3 && utf8_Valid r3
        | _ => false
        end
      else false
  end.

(** ** Opcodes, status codes and errors *)

(** Modelled from the spec: the [Opcode] type is declared outside these
    files; the glossary lists its values (text, binary, close, ping, pong,
    continuation) and RFC 6455 fixes their 4-bit tags. *)
Inductive Opcode : Type :=
  | OpcodeContinuation
  | OpcodeText
  | OpcodeBinary
  | OpcodeCloseConnection
  | OpcodePing
  | OpcodePong.

Definition Opcode_eqb (a b : Opcode) : bool :=
  match a, b with
  | OpcodeContinuation, OpcodeContinuation
  | OpcodeText, OpcodeText
  | OpcodeBinary, OpcodeBinary
  | OpcodeCloseConnection, OpcodeCloseConnection
  | OpcodePing, OpcodePing
  | OpcodePong, OpcodePong => true
  | _, _ => false
  end.

Definition Opcode_tag (o : Opcode) : Z :=
  match o with
  | OpcodeContinuation => 0x0
  | OpcodeText => 0x1
  | OpcodeBinary => 0x2
  | OpcodeCloseConnection => 0x8
  | OpcodePing => 0x9
  | OpcodePong => 0xA
  end.

(** Modelled from the spec: [Opcode.isDataFrame] is declared outside these
    files; the spec calls text and binary the data frame opcodes. *)
Definition isDataFrame (o : Opcode) : bool :=
  match o with
  | OpcodeText | OpcodeBinary => true
  | _ => false
  end.

(** [internal.StatusCode] is a [uint16]. *)
Definition StatusCode := Z.

Definition CloseNormalClosure : StatusCode := 1000.
Definition CloseProtocolError : StatusCode := 1002.
Definition CloseUnsupportedData : StatusCode := 1003.
Definition CloseMessageTooLarge : StatusCode := 1009.

(** Modelled from the spec: [StatusCode.Bytes] is declared in the internal
    package; the close frame payload starts with the 2-byte big-endian
    status code. *)
Definition StatusCode_Bytes (c : StatusCode) : list byte :=
  BigEndian_PutUint16 c.

(** Go's [error] interface, by the dynamic types that [emitError]
    distinguishes.  [nil] is [None] of [option error]. *)
#[local] Unset Elimination Schemes.
Inductive error : Type :=
  | EStatusCode (c : StatusCode)               (* internal.StatusCode *)
  | EInternal (code : StatusCode) (err : option error) (* *internal.Error *)
  | ECloseError (code : Z) (reason : list byte) (* *CloseError *)
  | EOther (msg : list byte).                   (* any other error value *)
#[local] Set Elimination Schemes.

Definition ErrConnClosed : error :=
  EOther (list_byte_of_string "connection closed"%string).
Definition ErrTextEncoding : error :=
  EOther (list_byte_of_string "invalid text encoding"%string).

(** ** Configuration and connection *)

Record Config : Type := {
  CheckUtf8Enabled : bool;
  CompressThreshold : Z;
  WriteMaxPayloadSize : Z
}.

(** A buffer from the pool: the unread bytes, the pool's release token and
    (ghost) the identity of the acquisition. *)
Record Buffer : Type := {
  bbytes : list byte;
  bindex : Z;
  bid : nat
}.

(** A task queued on a connection's write queue: the closure pushed by
    [WriteAsync], which captures the frame, or the closure pushed by
    [Broadcaster.Broadcast], which captures the cached frame it sends. *)
Inductive task : Type :=
  | TaskWriteAsync (frame : Buffer)
  | TaskBroadcast (frame : Buffer).

Record Conn : Type := {
  sock : nat;       (* the identity of the socket it owns *)
  isServer : bool;
  compressEnabled : bool;
  config : Config;
  closed : Z;
  writeQueue : list task
}.

Definition set_closed (c : Conn) (v : Z) : Conn :=
  {| sock := sock c; isServer := isServer c; compressEnabled := compressEnabled c;
     config := config c; closed := v; writeQueue := writeQueue c |}.

Definition push_task (c : Conn) (t : task) : Conn :=
  {| sock := sock c; isServer := isServer c; compressEnabled := compressEnabled c;
     config := config c; closed := closed c;
     writeQueue := writeQueue c ++ [t] |}.

Definition isTextValid (c : Conn) (opcode : Opcode) (payload : list byte) : bool :=
  if negb (CheckUtf8Enabled (config c)) then true
  else match opcode with
       | OpcodeText | OpcodeCloseConnection => utf8_Valid payload
       | _ => true
       end.

Definition isClosed (c : Conn) : bool := closed c =? 1.

(** ** Environment *)

Inductive result (A : Type) : Type :=
  | Ok (a : A)
  | Err (e : error).
Arguments Ok {A} a.
Arguments Err {A} e.

(** The kinds of deadline a caller can set on the socket. *)
Inductive deadline : Type := DeadlineBoth | DeadlineRead | DeadlineWrite.

(** What the connection does to the world outside it.  Every event carries
    the identity of the buffer or of the socket it touches. *)
Inductive event : Type :=
  | EvGet (id : nat) (size : Z)
      (* myBufferPool.Get *)
  | EvPut (id : nat)
      (* myBufferPool.Put *)
  | EvPutNil
      (* myBufferPool.Put of a nil buffer *)
  | EvWrite (sock : nat) (data : list byte)
      (* internal.WriteN on the socket *)
  | EvSetDeadline (sock : nat) (k : deadline)
      (* conn.SetDeadline and its read and write variants *)
  | EvOnClose (sock : nat) (e : option error).
      (* handler.OnClose *)

Record Env : Type := {
  trace : list event;
  nextBuf : nat;    (* identities handed out by the pool so far *)
  netOps : nat;     (* socket operations attempted so far *)
  maskOps : nat     (* mask keys drawn so far *)
}.

Definition emit (ev : event) (env : Env) : Env :=
  {| trace := trace env ++ [ev]; nextBuf := nextBuf env;
     netOps := netOps env; maskOps := maskOps env |}.

Definition Env0 : Env :=
  {| trace := []; nextBuf := 0; netOps := 0; maskOps := 0 |}.

(** The collaborators of the connection declared outside [conn.go] and
    [writer.go], left abstract. *)
Class Externals : Type := {
  (* compressors.Select().Compress(payload, buf): an error, or the bytes
     it appends to buf *)
  Compress : list byte -> result (list byte);
  (* the outcome of the n-th operation on the socket *)
  netResult : nat -> option error;
  (* the n-th random mask key *)
  newMaskKey : nat -> byte * byte * byte * byte;
  (* the tier the pool chooses for a requested size *)
  poolIndex : Z -> Z;
  compressionRate : Z;
  (* internal.ThresholdV1 *)
  ThresholdV1 : nat;
  (* err.Error() *)
  Error_text : error -> list byte
}.

(** Modelled from the spec: [frameHeaderSize] is declared outside these
    files; it is the maximum possible header size, 2 bytes, 8 bytes of
    extended length and 4 bytes of mask key. *)
Definition frameHeaderSize : nat := 14.

(** Modelled from the spec: [myPadding] is the reserved leading region of
    [frameHeaderSize] bytes. *)
Definition myPadding : list byte := repeat x00 frameHeaderSize.

(** Modelled from the spec: [internal.MaskXOR] is declared in the internal
    package; payload bytes are XORed with the 4-byte mask key, cyclically. *)
Fixpoint MaskXOR_from (i : nat) (b : list byte) (key : list byte) : list byte :=
  match b with
  | [] => []
  | x :: r =>
      byte_of_Z (Z.lxor (Z_of_byte x) (Z_of_byte (nth (i mod 4) key x00)))
        :: MaskXOR_from (S i) r key
  end.

Definition MaskXOR (b key : list byte) : list byte := MaskXOR_from 0 b key.

(** [copy(dst[at:], src)]: overwrite [dst] from offset [at] with as much of
    [src] as fits. *)
Definition copy_at (dst : list byte) (at_ : nat) (src : list byte) : list byte :=
  let n := Nat.min (List.length src) (List.length dst - at_) in
  firstn at_ dst ++ firstn n src ++ skipn (at_ + n) dst.

Section Connection.

Context {X : Externals}.

(** *** Buffer pool and socket *)

Definition pool_Get (size : Z) (env : Env) : Buffer * Env :=
  ({| bbytes := []; bindex := poolIndex size; bid := nextBuf env |},
   {| trace := trace env ++ [EvGet (nextBuf env) size];
      nextBuf := S (nextBuf env);
      netOps := netOps env; maskOps := maskOps env |}).

Definition pool_Put (b : Buffer) (env : Env) : Env := emit (EvPut (bid b)) env.

Definition buf_set (b : Buffer) (data : list byte) : Buffer :=
  {| bbytes := data; bindex := bindex b; bid := bid b |}.

(** An operation on the socket: it is recorded, and its outcome is the
    environment's. *)
Definition net_op (ev : event) (env : Env) : option error * Env :=
  (netResult (netOps env),
   {| trace := trace env ++ [ev]; nextBuf := nextBuf env;
      netOps := S (netOps env); maskOps := maskOps env |}).

Definition WriteN (sock : nat) (data : list byte) (env : Env) : option error * Env :=
  net_op (EvWrite sock data) env.

(** *** Frame header *)

(** Modelled from the spec: [frameHeader.GenerateHeader] is declared outside
    these files.  First byte FIN, RSV1 (set iff compressed and the opcode is
    a data frame opcode) and the 4-bit opcode; second byte the mask bit and
    the 7-bit length field, 0 to 125 inline, 126 before a 16-bit length, 127
    before a 64-bit length; then the mask key, for a client only. *)
Definition header_length_field (length : Z) : Z * list byte :=
  if length <=? 125 then (length, [])
  else if length <=? 65535 then (126, BigEndian_PutUint16 length)
  else (127, BigEndian_PutUint64 length).

Definition GenerateHeader (isServer fin compress : bool) (opcode : Opcode)
    (length : Z) (env : Env) : list byte * list byte * Env :=
  let b0 := (if fin then 128 else 0)
            + (if compress && isDataFrame opcode then 64 else 0)
            + Opcode_tag opcode in
  let '(l7, ext) := header_length_field length in
  if isServer then
    (byte_of_Z b0 :: byte_of_Z l7 :: ext, [], env)
  else
    let '(k0, k1, k2, k3) := newMaskKey (maskOps env) in
    let key := [k0; k1; k2; k3] in
    (byte_of_Z b0 :: byte_of_Z (Z.lor l7 128) :: ext ++ key, key,
     {| trace := trace env; nextBuf := nextBuf env;
        netOps := netOps env; maskOps := S (maskOps env) |}).

(** RSV1 is bit 6 of the first byte of a frame. *)
Definition frame_RSV1 (frame : list byte) : bool :=
  match frame with
  | b0 :: _ => Z.testbit (Z_of_byte b0) 6
  | [] => false
  end.

(** *** Frame generation ([writer.go]) *)

Definition compressData (c : Conn) (opcode : Opcode) (payload : list byte)
    (env : Env) : result Buffer * Env :=
  let '(buf, env1) := pool_Get (len payload / compressionRate) env in
  let buf := buf_set buf (bbytes buf ++ myPadding) in
  match Compress payload with
  | Err err => (Err err, env1)
  | Ok out =>
      let buf := buf_set buf (bbytes buf ++ out) in
      let contents := bbytes buf in
      let payloadSize := len contents - Z.of_nat frameHeaderSize in
      if payloadSize >? WriteMaxPayloadSize (config c) then
        (Err (EStatusCode CloseMessageTooLarge), env1)
      else
        let '(header, maskBytes, env2) :=
          GenerateHeader (isServer c) true true opcode payloadSize env1 in
        let headerLength := List.length header in
        let contents :=
          if negb (isServer c) then
            firstn frameHeaderSize contents
              ++ MaskXOR (skipn frameHeaderSize contents) maskBytes
          else contents in
        let contents := copy_at contents (frameHeaderSize - headerLength) header in
        (Ok (buf_set buf (skipn (frameHeaderSize - headerLength) contents)), env2)
  end.

(** The three ways through [genFrame]. *)
Inductive path : Type := PathRejectText | PathCompress | PathPlain.

Definition genFrame_path (c : Conn) (opcode : Opcode) (payload : list byte) : path :=
  if Opcode_eqb opcode OpcodeText && negb (isTextValid c opcode payload) then
    PathRejectText
  else if compressEnabled c && isDataFrame opcode
          && (len payload >=? CompressThreshold (config c)) then
    PathCompress
  else PathPlain.

Definition genFrame_plain (c : Conn) (opcode : Opcode) (payload : list byte)
    (env : Env) : result Buffer * Env :=
  let n := len payload in
  if n >? WriteMaxPayloadSize (config c) then
    (Err (EStatusCode CloseMessageTooLarge), env)
  else
    let '(header, maskBytes, env1) :=
      GenerateHeader (isServer c) true false opcode n env in
    let headerLength := List.length header in
    let totalSize := n + Z.of_nat headerLength in
    let '(buf, env2) := pool_Get totalSize env1 in
    let buf := buf_set buf (bbytes buf ++ header) in
    let buf := buf_set buf (bbytes buf ++ payload) in
    let contents := bbytes buf in
    let contents :=
      if negb (isServer c) then
        firstn headerLength contents ++ MaskXOR (skipn headerLength contents) maskBytes
      else contents in
    (Ok (buf_set buf contents), env2).

Definition genFrame (c : Conn) (opcode : Opcode) (payload : list byte)
    (env : Env) : result Buffer * Env :=
  match genFrame_path c opcode payload with
  | PathRejectText =>
      (Err (EInternal CloseUnsupportedData (Some ErrTextEncoding)), env)
  | PathCompress => compressData c opcode payload env
  | PathPlain => genFrame_plain c opcode payload env
  end.

(** *** Writes ([writer.go]) *)

(** The write logic proper; it does not look at [closed], so that the close
    frame can still be sent once the flag is set. *)
Definition doWrite (c : Conn) (opcode : Opcode) (payload : list byte)
    (env : Env) : option error * Env :=
  match genFrame c opcode payload env with
  | (Err err, env1) => (Some err, env1)
  | (Ok frame, env1) =>
      let '(err, env2) := WriteN (sock c) (bbytes frame) env1 in
      (err, pool_Put frame env2)
  end.

(** *** Close and error state machine ([conn.go]) *)

(** The type switch of [emitError]: the code to respond with and the error
    handed to [OnClose]. *)
Definition emitError_response (err : error) : StatusCode * option error :=
  match err with
  | EStatusCode v => (v, Some (EStatusCode CloseNormalClosure))
  | EInternal code e => (code, e)
  | _ => (CloseNormalClosure, Some err)
  end.

(** The payload of the close frame [emitError] sends. *)
Definition emitError_content (err : error) : list byte :=
  let content := StatusCode_Bytes (fst (emitError_response err)) in
  let content := content ++ Error_text err in
  if (ThresholdV1 <? List.length content)%nat then firstn ThresholdV1 content
  else content.

Definition emitError (err : option error) (c : Conn) (env : Env) : Conn * Env :=
  match err with
  | None => (c, env)
  | Some e =>
      let responseErr := snd (emitError_response e) in
      let content := emitError_content e in
      if closed c =? 0 then
        (* atomic.CompareAndSwapUint32(&c.closed, 0, 1) succeeded *)
        let c := set_closed c 1 in
        let '(_, env) := doWrite c OpcodeCloseConnection content env in
        let '(_, env) := net_op (EvSetDeadline (sock c) DeadlineBoth) env in
        (c, emit (EvOnClose (sock c) responseErr) env)
      else (c, env)
  end.

(** The [switch] of [emitClose] over the peer's close payload: the code to
    respond with, the code the peer sent and what is left of the buffer. *)
Definition emitClose_codes (c : Conn) (buf : list byte) : StatusCode * Z * list byte :=
  match buf with
  | [] => (0, 0, buf)
  | [b] => (CloseProtocolError, Z_of_byte b, [])
  | b0 :: b1 :: rest =>
      let realCode := BigEndian_Uint16 [b0; b1] in
      let responseCode :=
        if (realCode =? 1004) || (realCode =? 1005) || (realCode =? 1006)
           || (realCode =? 1014) || (realCode =? 1015) then CloseProtocolError
        else if (realCode <? 1000) || (realCode >=? 5000)
                || ((realCode >=? 1016) && (realCode <? 3000)) then
          CloseProtocolError
        else if realCode <? 1016 then CloseNormalClosure
        else realCode in
      let responseCode :=
        if negb (isTextValid c OpcodeCloseConnection rest) then CloseUnsupportedData
        else responseCode in
      (responseCode, realCode, rest)
  end.

Definition emitClose (buf : list byte) (c : Conn) (env : Env) : error * Conn * Env :=
  let '(responseCode, realCode, rest) := emitClose_codes c buf in
  if closed c =? 0 then
    let c := set_closed c 1 in
    let '(_, env) := doWrite c OpcodeCloseConnection (StatusCode_Bytes responseCode) env in
    (EStatusCode CloseNormalClosure, c,
     emit (EvOnClose (sock c) (Some (ECloseError realCode rest))) env)
  else (EStatusCode CloseNormalClosure, c, env).

Definition set_deadline (k : deadline) (c : Conn) (env : Env)
    : option error * Conn * Env :=
  if isClosed c then (Some ErrConnClosed, c, env)
  else
    let '(err, env) := net_op (EvSetDeadline (sock c) k) env in
    let '(c, env) := emitError err c env in
    (err, c, env).

Definition SetDeadline := set_deadline DeadlineBoth.
Definition SetReadDeadline := set_deadline DeadlineRead.
Definition SetWriteDeadline := set_deadline DeadlineWrite.

(** *** Write entry points ([writer.go]) *)

Definition WriteClose (code : Z) (reason : list byte) (c : Conn) (env : Env)
    : Conn * Env :=
  let err := Some (EOther []) in
  let err := if (0 <? List.length reason)%nat then Some (EOther reason) else err in
  emitError (Some (EInternal (wrap16 code) err)) c env.

Definition WriteMessage (opcode : Opcode) (payload : list byte) (c : Conn)
    (env : Env) : option error * Conn * Env :=
  if isClosed c then (Some ErrConnClosed, c, env)
  else
    let '(err, env) := doWrite c opcode payload env in
    let '(c, env) := emitError err c env in
    (err, c, env).

Definition WritePing := WriteMessage OpcodePing.
Definition WritePong := WriteMessage OpcodePong.
Definition WriteString := WriteMessage OpcodeText.

Definition WriteAsync (opcode : Opcode) (payload : list byte) (c : Conn)
    (env : Env) : option error * Conn * Env :=
  match genFrame c opcode payload env with
  | (Err err, env) =>
      let '(c, env) := emitError (Some err) c env in
      (Some err, c, env)
  | (Ok frame, env) => (None, push_task c (TaskWriteAsync frame), env)
  end.

(** The closure [WriteAsync] pushes, run by the write queue. *)
Definition run_WriteAsync_task (frame : Buffer) (c : Conn) (env : Env) : Conn * Env :=
  if isClosed c then (c, env)
  else
    let '(err, env) := WriteN (sock c) (bbytes frame) env in
    let env := pool_Put frame env in
    emitError err c env.

(** *** Broadcaster ([writer.go]) *)

(** The wrapper holds what [genFrame] returned: the frame with its pool
    token, or the error (and then a nil frame). *)
Definition broadcastMessageWrapper : Type := result Buffer.

Record Broadcaster : Type := {
  b_opcode : Opcode;
  b_payload : list byte;
  msgs : option broadcastMessageWrapper * option broadcastMessageWrapper;
  state : Z
}.

Definition MaxInt32 : Z := 2147483647.

Definition NewBroadcaster (opcode : Opcode) (payload : list byte) : Broadcaster :=
  {| b_opcode := opcode; b_payload := payload; msgs := (None, None);
     state := MaxInt32 |}.

Definition get_msg (b : Broadcaster) (idx : nat) : option broadcastMessageWrapper :=
  match idx with
  | O => fst (msgs b)
  | _ => snd (msgs b)
  end.

Definition set_msg (b : Broadcaster) (idx : nat) (m : broadcastMessageWrapper)
    : Broadcaster :=
  {| b_opcode := b_opcode b; b_payload := b_payload b;
     msgs := match idx with
             | O => (Some m, snd (msgs b))
             | _ => (fst (msgs b), Some m)
             end;
     state := state b |}.

(** [atomic.AddInt64(&c.state, delta)]. *)
Definition add_state (b : Broadcaster) (delta : Z) : Broadcaster :=
  {| b_opcode := b_opcode b; b_payload := b_payload b; msgs := msgs b;
     state := wrap64 (state b + delta) |}.

Definition doClose_item (item : option broadcastMessageWrapper) (env : Env) : Env :=
  match item with
  | None => env
  | Some (Ok frame) => pool_Put frame env
  | Some (Err _) => emit EvPutNil env
  end.

Definition doClose (b : Broadcaster) (env : Env) : Env :=
  doClose_item (snd (msgs b)) (doClose_item (fst (msgs b)) env).

Definition Broadcast (b : Broadcaster) (socket : Conn) (env : Env)
    : option error * Broadcaster * Conn * Env :=
  let idx := if compressEnabled socket then 1%nat else 0%nat in
  let '(b, msg, env) :=
    match get_msg b idx with
    | Some msg => (b, msg, env)
    | None =>
        let '(msg, env) := genFrame socket (b_opcode b) (b_payload b) env in
        (set_msg b idx msg, msg, env)
    end in
  match msg with
  | Err err => (Some err, b, socket, env)
  | Ok frame =>
      let b := add_state b 1 in
      (None, b, push_task socket (TaskBroadcast frame), env)
  end.

(** The closure [Broadcast] pushes, run by the socket's write queue. *)
Definition run_Broadcast_task (frame : Buffer) (b : Broadcaster) (socket : Conn)
    (env : Env) : Broadcaster * Conn * Env :=
  let '(socket, env) :=
    if negb (isClosed socket) then
      let '(err, env) := WriteN (sock socket) (bbytes frame) env in
      emitError err socket env
    else (socket, env) in
  let b := add_state b (-1) in
  if state b =? 0 then (b, socket, doClose b env) else (b, socket, env).

Definition Release (b : Broadcaster) (env : Env) : Broadcaster * Env :=
  let b := add_state b (-1 * MaxInt32) in
  if state b =? 0 then (b, doClose b env) else (b, env).

(** *** The write queue *)

(** Modelled from the spec: the worker queue is declared outside these
    files; a connection's write queue is FIFO with concurrency 1, so its
    tasks run one at a time in submission order. *)
Definition pop_task (c : Conn) : Conn :=
  {| sock := sock c; isServer := isServer c; compressEnabled := compressEnabled c;
     config := config c; closed := closed c;
     writeQueue := tl (writeQueue c) |}.

(** *** Close triggers, one after the other *)

Inductive trigger : Type :=
  | TrigReadError (e : error)         (* ReadLoop: readMessage failed *)
  | TrigWriteError (e : error)        (* a write failed *)
  | TrigPeerClose (payload : list byte) (* the peer sent a close frame *)
  | TrigWriteClose (code : Z) (reason : list byte).

Definition apply_trigger (t : trigger) (c : Conn) (env : Env) : Conn * Env :=
  match t with
  | TrigReadError e => emitError (Some e) c env
  | TrigWriteError e => emitError (Some e) c env
  | TrigPeerClose payload =>
      let '(_, c, env) := emitClose payload c env in (c, env)
  | TrigWriteClose code reason => WriteClose code reason c env
  end.

Fixpoint run_triggers (ts : list trigger) (c : Conn) (env : Env) : Conn * Env :=
  match ts with
  | [] => (c, env)
  | t :: ts => let '(c, env) := apply_trigger t c env in run_triggers ts c env
  end.

(** *** Close triggers, interleaved

    Each trigger runs on its own goroutine.  The compare-and-swap on
    [closed] is one atomic step; what the winner does after it (the close
    frame, the deadline, the callback) are further steps, which the
    scheduler may interleave with the steps of the other goroutines. *)

Inductive action : Type :=
  | ActWrite (payload : list byte)  (* doWrite(OpcodeCloseConnection, payload) *)
  | ActDeadline                     (* conn.SetDeadline(time.Now()) *)
  | ActOnClose (e : option error).  (* handler.OnClose *)

(** What the goroutine that wins the compare-and-swap goes on to do. *)
Definition trigger_actions (t : trigger) (c : Conn) : list action :=
  let of_error e :=
    [ActWrite (emitError_content e); ActDeadline;
     ActOnClose (snd (emitError_response e))] in
  match t with
  | TrigReadError e => of_error e
  | TrigWriteError e => of_error e
  | TrigPeerClose payload =>
      let '(responseCode, realCode, rest) := emitClose_codes c payload in
      [ActWrite (StatusCode_Bytes responseCode);
       ActOnClose (Some (ECloseError realCode rest))]
  | TrigWriteClose code reason =>
      let err := if (0 <? List.length reason)%nat then EOther reason else EOther [] in
      of_error (EInternal (wrap16 code) (Some err))
  end.

Definition do_action (a : action) (c : Conn) (env : Env) : Env :=
  match a with
  | ActWrite payload => snd (doWrite c OpcodeCloseConnection payload env)
  | ActDeadline => snd (net_op (EvSetDeadline (sock c) DeadlineBoth) env)
  | ActOnClose e => emit (EvOnClose (sock c) e) env
  end.

Inductive goroutine : Type :=
  | Waiting (t : trigger)          (* has not reached the compare-and-swap *)
  | Running (todo : list action).  (* past it, with these steps left *)

Definition step_goroutine (g : goroutine) (c : Conn) (env : Env)
    : goroutine * Conn * Env :=
  match g with
  | Waiting t =>
      if closed c =? 0 then (Running (trigger_actions t c), set_closed c 1, env)
      else (Running [], c, env)
  | Running [] => (g, c, env)
  | Running (a :: todo) => (Running todo, c, do_action a c env)
  end.

Fixpoint update_nth {A : Type} (l : list A) (i : nat) (x : A) : list A :=
  match l, i with
  | [], _ => []
  | _ :: r, O => x :: r
  | y :: r, S i => y :: update_nth r i x
  end.

(** The scheduler picks goroutine [i] for one step. *)
Definition step_at (i : nat) (gs : list goroutine) (c : Conn) (env : Env)
    : list goroutine * Conn * Env :=
  match nth_error gs i with
  | None => (gs, c, env)
  | Some g =>
      let '(g, c, env) := step_goroutine g c env in
      (update_nth gs i g, c, env)
  end.

Fixpoint run_schedule (sched : list nat) (gs : list goroutine) (c : Conn)
    (env : Env) : list goroutine * Conn * Env :=
  match sched with
  | [] => (gs, c, env)
  | i :: sched =>
      let '(gs, c, env) := step_at i gs c env in
      run_schedule sched gs c env
  end.


(** *** Broadcasting to many connections *)

Record World : Type := {
  conns : list Conn;
  bc : Broadcaster;
  wenv : Env
}.

Inductive bstep : Type :=
  | DoBroadcast (i : nat)  (* Broadcast(conns[i]) *)
  | DoRunTask (i : nat)    (* the write queue of conns[i] runs its next task *)
  | DoRelease.             (* Release() *)

Definition run_task (t : task) (b : Broadcaster) (c : Conn) (env : Env)
    : Broadcaster * Conn * Env :=
  match t with
  | TaskWriteAsync frame =>
      let '(c, env) := run_WriteAsync_task frame c env in (b, c, env)
  | TaskBroadcast frame => run_Broadcast_task frame b c env
  end.

Definition world_step (a : bstep) (w : World) : World :=
  match a with
  | DoBroadcast i =>
      match nth_error (conns w) i with
      | None => w
      | Some socket =>
          let '(_, b, socket, env) := Broadcast (bc w) socket (wenv w) in
          {| conns := update_nth (conns w) i socket; bc := b; wenv := env |}
      end
  | DoRunTask i =>
      match nth_error (conns w) i with
      | None => w
      | Some socket =>
          match writeQueue socket with
          | [] => w
          | t :: _ =>
              let '(b, socket, env) := run_task t (bc w) (pop_task socket) (wenv w) in
              {| conns := update_nth (conns w) i socket; bc := b; wenv := env |}
          end
      end
  | DoRelease =>
      let '(b, env) := Release (bc w) (wenv w) in
      {| conns := conns w; bc := b; wenv := env |}
  end.

Definition world_run (acts : list bstep) (w : World) : World :=
  fold_left (fun w a => world_step a w) acts w.

End Connection.

(** ** Observations on traces *)

Definition is_OnClose (sk : nat) (ev : event) : bool :=
  match ev with
  | EvOnClose s _ => Nat.eqb s sk
  | _ => false
  end.

Definition is_Write (sk : nat) (ev : event) : bool :=
  match ev with
  | EvWrite s _ => Nat.eqb s sk
  | _ => false
  end.

Definition is_Get (id : nat) (ev : event) : bool :=
  match ev with
  | EvGet i _ => Nat.eqb i id
  | _ => false
  end.

Definition is_Put (id : nat) (ev : event) : bool :=
  match ev with
  | EvPut i => Nat.eqb i id
  | _ => false
  end.

Definition count (p : event -> bool) (tr : list event) : nat :=
  List.length (filter p tr).

(** The buffers acquired so far that have not been released. *)
Definition leaked (env : Env) : list nat :=
  filter (fun id => Nat.eqb (count (is_Put id) (trace env)) 0)
         (filter (fun id => negb (Nat.eqb (count (is_Get id) (trace env)) 0))
                 (seq 0 (nextBuf env))).

(** ** Definitions used to state the properties *)

(** The close code the spec prescribes for a peer close payload, in the
    spec's words: no code for an empty payload; protocol error for a 1-byte
    payload; otherwise the first two bytes are the big-endian code, and the
    forbidden codes, the codes outside [1000, 5000) and the reserved range
    [1016, 3000) give protocol error, the codes of [1000, 1016) give normal
    closure, the codes from 3000 are answered as given; an invalid UTF-8
    reason, when checking is enabled, forces unsupported data. *)
Definition close_response_spec (checkUtf8 : bool) (payload : list byte) : StatusCode :=
  match payload with
  | [] => 0
  | [_] => CloseProtocolError
  | b0 :: b1 :: reason =>
      let code := 256 * Z_of_byte b0 + Z_of_byte b1 in
      if checkUtf8 && negb (utf8_Valid reason) then CloseUnsupportedData
      else if existsb (Z.eqb code) [1004; 1005; 1006; 1014; 1015] then
        CloseProtocolError
      else if (code <? 1000) || (5000 <=? code) then CloseProtocolError
      else if (1016 <=? code) && (code <? 3000) then CloseProtocolError
      else if (1000 <=? code) && (code <? 1016) then CloseNormalClosure
      else code
  end.

(** The condition under which the spec has a frame compressed. *)
Definition compress_condition (c : Conn) (opcode : Opcode) (payload : list byte) : bool :=
  compressEnabled c && isDataFrame opcode
  && (CompressThreshold (config c) <=? len payload).

(** The length of the payload of the frame that would go on the wire: the
    compressed length on the compression path (none when the compressor
    fails), the length of the payload otherwise. *)
Definition final_payload_len {X : Externals} (c : Conn) (opcode : Opcode)
    (payload : list byte) : option Z :=
  if compress_condition c opcode payload then
    match Compress payload with
    | Ok out => Some (len out)
    | Err _ => None
    end
  else Some (len payload).

(** The caller's side of the Broadcaster contract: [Release] is called at
    most once, and no [Broadcast] is issued after it. *)
Definition is_run (a : bstep) : bool :=
  match a with
  | DoRunTask _ => true
  | _ => false
  end.

Definition is_release (a : bstep) : bool :=
  match a with
  | DoRelease => true
  | _ => false
  end.

Fixpoint protocol_ok (acts : list bstep) : bool :=
  match acts with
  | [] => true
  | DoRelease :: rest => forallb is_run rest
  | _ :: rest => protocol_ok rest
  end.

Definition released (acts : list bstep) : bool := existsb is_release acts.

Definition is_broadcast_task (t : task) : bool :=
  match t with
  | TaskBroadcast _ => true
  | _ => false
  end.

(** The broadcast writes enqueued and not yet completed. *)
Definition pending (cs : list Conn) : nat :=
  list_sum (map (fun c => List.length (filter is_broadcast_task (writeQueue c))) cs).

Definition cached (item : option broadcastMessageWrapper) : list Buffer :=
  match item with
  | Some (Ok frame) => [frame]
  | _ => []
  end.

(** The frame buffers a Broadcaster holds. *)
Definition cached_frames (b : Broadcaster) : list Buffer :=
  cached (fst (msgs b)) ++ cached (snd (msgs b)).


(** The compression rule as the spec states it for a write call: the
    compression path is taken exactly under [compress_condition], and the
    generated frame has RSV1 set exactly then. *)
Definition compression_rule {X : Externals} (c : Conn) (opcode : Opcode)
    (payload : list byte) (env : Env) : Prop :=
  (genFrame_path c opcode payload = PathCompress
   <-> compress_condition c opcode payload = true)
  /\ forall frame env',
       genFrame c opcode payload env = (Ok frame, env') ->
       frame_RSV1 (bbytes frame) = compress_condition c opcode payload.






(** No buffer is released under an identity the pool has not handed out
    yet. *)
Definition puts_fresh (env : Env) : Prop :=
  forall id, (nextBuf env <= id)%nat -> count (is_Put id) (trace env) = 0%nat.

(** How many of the frames a Broadcaster holds carry the identity [id]. *)
Definition occurrences (id : nat) (b : Broadcaster) : nat :=
  List.length (filter (fun f => Nat.eqb (bid f) id) (cached_frames b)).

(** The state of a broadcast in progress: [rel] tells whether [Release]
    has been called, [m] bounds the writes in flight.  The counter is the
    sentinel (until [Release]) plus the writes in flight; the queues hold
    broadcast tasks only; the cached frames have distinct identities, all
    handed out by the pool, and each has been released once if [Release]
    was called and no write is in flight, and never otherwise. *)
Record broadcast_inv (rel : bool) (m : nat) (w : World) : Prop := {
  inv_state :
    state (bc w) = (if rel then 0 else MaxInt32) + Z.of_nat (pending (conns w));
  inv_bound : (pending (conns w) <= m)%nat;
  inv_tasks :
    Forall (fun c => forallb is_broadcast_task (writeQueue c) = true) (conns w);
  inv_fresh : puts_fresh (wenv w);
  inv_distinct :
    forall f0 f1, fst (msgs (bc w)) = Some (Ok f0) ->
                  snd (msgs (bc w)) = Some (Ok f1) -> bid f0 <> bid f1;
  inv_cached :
    forall f, In f (cached_frames (bc w)) ->
      (bid f < nextBuf (wenv w))%nat
      /\ count (is_Put (bid f)) (trace (wenv w))
         = if rel && Nat.eqb (pending (conns w)) 0 then 1%nat else 0%nat
}.

(** What the caller may still do: anything the contract allows before
    [Release], only let the queues run after it. *)
Definition allowed (rel : bool) (acts : list bstep) : bool :=
  if rel then forallb is_run acts else protocol_ok acts.

(** The three outcomes of [doWrite]: it fails before acquiring a buffer; it
    fails holding a buffer it never releases; or it acquires a buffer,
    writes it to the socket once and releases it. *)
Inductive doWrite_outcome {X : Externals} (c : Conn) (env : Env)
    (r : option error) (env' : Env) : Prop :=
  | dw_rejected e :
      r = Some e -> env' = env ->
      doWrite_outcome c env r env'
  | dw_dropped e size :
      r = Some e ->
      trace env' = trace env ++ [EvGet (nextBuf env) size] ->
      nextBuf env' = S (nextBuf env) ->
      netOps env' = netOps env ->
      doWrite_outcome c env r env'
  | dw_written size data :
      r = netResult (netOps env) ->
      trace env' = trace env ++ [EvGet (nextBuf env) size;
                                 EvWrite (sock c) data;
                                 EvPut (nextBuf env)] ->
      nextBuf env' = S (nextBuf env) ->
      netOps env' = S (netOps env) ->
      doWrite_outcome c env r env'.


(** ** Concrete collaborators, for evaluation *)

Definition sample_text (e : error) : list byte :=
  match e with
  | EOther msg => msg
  | EInternal _ (Some (EOther msg)) => msg
  | _ => list_byte_of_string "gws"%string
  end.

(** A compressor that stores its input, a socket that never fails. *)
Definition sampleX : Externals :=
  {| Compress := fun p => Ok p;
     netResult := fun _ => None;
     newMaskKey := fun _ => (x01, x02, x03, x04);
     poolIndex := fun _ => 1;
     compressionRate := 3;
     ThresholdV1 := 125;
     Error_text := sample_text |}.

(** The same, with a compressor that fails. *)
Definition failingX : Externals :=
  {| Compress := fun _ => Err (EOther (list_byte_of_string "flate"%string));
     netResult := fun _ => None;
     newMaskKey := fun _ => (x01, x02, x03, x04);
     poolIndex := fun _ => 1;
     compressionRate := 3;
     ThresholdV1 := 125;
     Error_text := sample_text |}.

(** The same, with a socket on which every operation fails. *)
Definition brokenX : Externals :=
  {| Compress := fun p => Ok p;
     netResult := fun _ => Some (EOther (list_byte_of_string "broken pipe"%string));
     newMaskKey := fun _ => (x01, x02, x03, x04);
     poolIndex := fun _ => 1;
     compressionRate := 3;
     ThresholdV1 := 125;
     Error_text := sample_text |}.

Definition sample_config (utf8 : bool) (threshold max : Z) : Config :=
  {| CheckUtf8Enabled := utf8; CompressThreshold := threshold;
     WriteMaxPayloadSize := max |}.

(** A server connection, as [serveWebSocket] builds it. *)
Definition sample_conn (id : nat) (compress : bool) (cfg : Config) : Conn :=
  {| sock := id; isServer := true; compressEnabled := compress; config := cfg;
     closed := 0; writeQueue := [] |}.

(** What is left after an asynchronous write is queued on an open
    connection, the connection is closed, and the queue then runs the
    task. *)
Definition async_then_close : Conn * Env :=
  let c := sample_conn 0 false (sample_config false 0 100) in
  let '(_, c, env) := @WriteAsync sampleX OpcodeBinary [x01] c Env0 in
  let '(c, env) := @WriteClose sampleX 1000 [] c env in
  match writeQueue c with
  | TaskWriteAsync frame :: _ => @run_WriteAsync_task sampleX frame (pop_task c) env
  | _ => (c, env)
  end.

(** ** Calls on a connection, in sequence

    What the application, the read loop and the write queue can do to one
    connection and the Broadcaster it is a target of. *)

Inductive call : Type :=
  | CallWriteMessage (opcode : Opcode) (payload : list byte)
  | CallWriteAsync (opcode : Opcode) (payload : list byte)
  | CallWriteClose (code : Z) (reason : list byte)
  | CallSetDeadline (k : deadline)
  | CallReadError (e : error)            (* ReadLoop: emitError(err) *)
  | CallPeerClose (payload : list byte)  (* the read path: emitClose(buf) *)
  | CallBroadcast                        (* Broadcast(c) *)
  | CallRelease                          (* Release() *)
  | CallRunTask.                         (* the write queue runs its next task *)

Definition apply_call {X : Externals} (a : call) (s : Broadcaster * Conn * Env)
    : Broadcaster * Conn * Env :=
  let '(b, c, env) := s in
  match a with
  | CallWriteMessage opcode payload =>
      let '(_, c, env) := WriteMessage opcode payload c env in (b, c, env)
  | CallWriteAsync opcode payload =>
      let '(_, c, env) := WriteAsync opcode payload c env in (b, c, env)
  | CallWriteClose code reason =>
      let '(c, env) := WriteClose code reason c env in (b, c, env)
  | CallSetDeadline k =>
      let '(_, c, env) := set_deadline k c env in (b, c, env)
  | CallReadError e =>
      let '(c, env) := emitError (Some e) c env in (b, c, env)
  | CallPeerClose payload =>
      let '(_, c, env) := emitClose payload c env in (b, c, env)
  | CallBroadcast =>
      let '(_, b, c, env) := Broadcast b c env in (b, c, env)
  | CallRelease =>
      let '(b, env) := Release b env in (b, c, env)
  | CallRunTask =>
      match writeQueue c with
      | [] => (b, c, env)
      | t :: _ => run_task t b (pop_task c) env
      end
  end.

Definition run_calls {X : Externals} (calls : list call)
    (s : Broadcaster * Conn * Env) : Broadcaster * Conn * Env :=
  fold_left (fun s a => apply_call a s) calls s.

(** Ping, pong and close. *)
Definition is_control (opcode : Opcode) : bool :=
  match opcode with
  | OpcodeCloseConnection | OpcodePing | OpcodePong => true
  | _ => false
  end.

Definition ascii_only (p : list byte) : bool :=
  forallb (fun b => Z_of_byte b <? 0x80) p.

(** The payload part of a frame as it goes on the wire: as it is for a
    server, masked with the frame's key for a client. *)
Definition wire_payload (c : Conn) (data maskBytes : list byte) : list byte :=
  if isServer c then data else MaskXOR data maskBytes.

(** From [env] to [env'] the socket was not used and [OnClose] was not
    called. *)
Definition quiet (env env' : Env) : Prop :=
  netOps env' = netOps env
  /\ forall k,
       count (is_Write k) (trace env') = count (is_Write k) (trace env)
       /\ count (is_OnClose k) (trace env') = count (is_OnClose k) (trace env).

Definition same_OnClose (env env' : Env) : Prop :=
  forall k, count (is_OnClose k) (trace env') = count (is_OnClose k) (trace env).

(** What one call can do to the closed flag and to [OnClose]: either the
    flag stays and [OnClose] is not called (and on a closed connection the
    socket is not used), or the call closes the open connection and calls
    [OnClose] once. *)
Definition call_step (c : Conn) (env : Env) (c' : Conn) (env' : Env) : Prop :=
  sock c' = sock c
  /\ ((closed c' = closed c /\ same_OnClose env env'
       /\ (closed c = 1 -> quiet env env'))
      \/ (closed c = 0 /\ closed c' = 1
          /\ count (is_OnClose (sock c)) (trace env')
             = S (count (is_OnClose (sock c)) (trace env)))).

(** * Properties *)

(** ** Bytes *)

Lemma Z_of_byte_range (b : byte) : 0 <= Z_of_byte b < 256.
Proof.
  unfold Z_of_byte. pose proof (Byte.to_N_bounded b). lia.
Qed.

Lemma Z_of_byte_of_Z (z : Z) : Z_of_byte (byte_of_Z z) = z mod 256.
Proof.
  unfold Z_of_byte, byte_of_Z.
  assert (Hr : 0 <= z mod 256 < 256) by (apply Z.mod_pos_bound; lia).
  destruct (Byte.of_N (Z.to_N (z mod 256))) as [b|] eqn:E.
  - apply Byte.to_of_N in E. rewrite E. lia.
  - apply Byte.of_N_None_iff in E. lia.
Qed.

Lemma land_shifted_byte (a b : Z) :
  0 <= b < 256 -> Z.land (a * 2 ^ 8) b = 0.
Proof.
  intros Hb. apply Z.bits_inj'. intros n Hn.
  rewrite Z.land_spec, Z.bits_0.
  destruct (Z.ltb_spec n 8).
  - rewrite Z.mul_pow2_bits_low by lia. reflexivity.
  - destruct (Z.eq_dec b 0) as [->|Hnz].
    + rewrite Z.bits_0. apply andb_false_r.
    + rewrite (Z.bits_above_log2 b n); [apply andb_false_r | lia |].
      apply Z.lt_le_trans with 8; [|lia].
      apply Z.log2_lt_pow2; lia.
Qed.

Lemma lor_shifted_byte (a b : Z) :
  0 <= b < 256 -> Z.lor (Z.shiftl a 8) b = 256 * a + b.
Proof.
  intros Hb. rewrite Z.shiftl_mul_pow2 by lia.
  pose proof (land_shifted_byte a Hb) as H0.
  rewrite <- Z.lxor_lor by exact H0.
  rewrite <- Z.add_nocarry_lxor by exact H0. lia.
Qed.

Lemma BigEndian_Uint16_add (b0 b1 : byte) (rest : list byte) :
  BigEndian_Uint16 (b0 :: b1 :: rest) = 256 * Z_of_byte b0 + Z_of_byte b1.
Proof.
  simpl. apply lor_shifted_byte, Z_of_byte_range.
Qed.

Lemma BigEndian_Uint16_range (b : list byte) : 0 <= BigEndian_Uint16 b < 65536.
Proof.
  destruct b as [|b0 [|b1 rest]]; try (simpl; lia).
  rewrite BigEndian_Uint16_add.
  pose proof (Z_of_byte_range b0). pose proof (Z_of_byte_range b1). lia.
Qed.

Lemma BigEndian_Uint16_Put (v : Z) (rest : list byte) :
  0 <= v < 65536 -> BigEndian_Uint16 (BigEndian_PutUint16 v ++ rest) = v.
Proof.
  intros Hv. unfold BigEndian_PutUint16.
  change ([byte_of_Z (Z.shiftr v 8); byte_of_Z v] ++ rest)
    with (byte_of_Z (Z.shiftr v 8) :: byte_of_Z v :: rest).
  rewrite BigEndian_Uint16_add, !Z_of_byte_of_Z.
  rewrite Z.shiftr_div_pow2 by lia. change (2 ^ 8) with 256.
  rewrite (Z.mod_small (v / 256) 256).
  - pose proof (Z.div_mod v 256). lia.
  - split; [apply Z.div_pos; lia | apply Z.div_lt_upper_bound; lia].
Qed.

(** ** Close codes *)

Ltac split_Z_tests :=
  repeat match goal with
    | |- context [Z.eqb ?a ?b] => destruct (Z.eqb_spec a b)
    | |- context [Z.ltb ?a ?b] => destruct (Z.ltb_spec a b)
    | |- context [Z.leb ?a ?b] => destruct (Z.leb_spec a b)
    | |- context [Z.geb ?a ?b] => rewrite (Z.geb_leb a b)
    | |- context [Z.gtb ?a ?b] => rewrite (Z.gtb_ltb a b)
    end.

Lemma emitClose_codes_response (c : Conn) (payload : list byte) :
  fst (fst (emitClose_codes c payload))
  = close_response_spec (CheckUtf8Enabled (config c)) payload.
Proof.
  destruct payload as [|b0 [|b1 rest]]; try reflexivity.
  unfold emitClose_codes, close_response_spec, isTextValid.
  rewrite BigEndian_Uint16_add.
  set (code := 256 * Z_of_byte b0 + Z_of_byte b1).
  cbn [fst existsb].
  destruct (CheckUtf8Enabled (config c)); cbn [negb andb];
    [destruct (utf8_Valid rest); cbn [negb]; try reflexivity|];
    unfold CloseProtocolError, CloseNormalClosure;
    split_Z_tests; cbn; try reflexivity; lia.
Qed.

(** C2: the code [emitClose] answers a peer close frame with is the one the
    spec prescribes for its payload ([close_response_spec]): none for an
    empty payload, protocol error for one byte, and for two bytes or more
    protocol error for the forbidden codes 1004, 1005, 1006, 1014, 1015,
    for codes below 1000 or from 5000, and for [1016, 3000), normal closure
    for the other codes below 1016, the code itself in [3000, 5000), and
    unsupported data whenever UTF-8 checking is on and the reason is not
    valid UTF-8.  The first connection to close writes that code in its
    close frame. *)
Theorem emitClose_responds_per_spec {X : Externals} (c : Conn)
    (payload : list byte) (env : Env) :
  let code := close_response_spec (CheckUtf8Enabled (config c)) payload in
  fst (fst (emitClose_codes c payload)) = code
  /\ snd (emitClose payload c env)
     = if closed c =? 0 then
         emit (EvOnClose (sock c)
                 (Some (ECloseError (snd (fst (emitClose_codes c payload)))
                                    (snd (emitClose_codes c payload)))))
           (snd (doWrite (set_closed c 1) OpcodeCloseConnection
                   (StatusCode_Bytes code) env))
       else env.
Proof.
  intros code. split; [apply emitClose_codes_response|].
  unfold emitClose. subst code. rewrite <- emitClose_codes_response.
  destruct (emitClose_codes c payload) as [[responseCode realCode] rest].
  cbn [fst snd].
  destruct (closed c =? 0); [|reflexivity].
  destruct (doWrite _ _ _ _) as [r env1]. reflexivity.
Qed.

Example close_code_1005 :
  close_response_spec false (BigEndian_PutUint16 1005) = CloseProtocolError.
Proof. reflexivity. Qed.

Example close_code_1000 :
  close_response_spec false (BigEndian_PutUint16 1000) = 1000.
Proof. reflexivity. Qed.

Example close_code_one_byte :
  fst (fst (emitClose_codes (sample_conn 0 false (sample_config true 0 100)) [x03]))
  = CloseProtocolError.
Proof. reflexivity. Qed.

Example close_code_3001_bad_reason :
  fst (fst (emitClose_codes (sample_conn 0 false (sample_config true 0 100))
              (BigEndian_PutUint16 3001 ++ [xff])))
  = CloseUnsupportedData.
Proof. reflexivity. Qed.

(** ** What frame generation and writes do to the environment *)

Section Effects.

Context {X : Externals}.

Lemma GenerateHeader_env isS fin cmp op n env h k env' :
  GenerateHeader isS fin cmp op n env = (h, k, env') ->
  trace env' = trace env /\ nextBuf env' = nextBuf env /\ netOps env' = netOps env.
Proof.
  unfold GenerateHeader. destruct (header_length_field n) as [l7 ext].
  destruct isS.
  - intros [= <- <- <-]. auto.
  - destruct (newMaskKey (maskOps env)) as [[[k0 k1] k2] k3].
    intros [= <- <- <-]. auto.
Qed.

(** [genFrame] never touches the socket, and acquires at most one buffer. *)
Lemma genFrame_effect c op p env r env' :
  genFrame c op p env = (r, env') ->
  netOps env' = netOps env
  /\ ((trace env' = trace env /\ nextBuf env' = nextBuf env /\ exists e, r = Err e)
      \/ (exists size,
             trace env' = trace env ++ [EvGet (nextBuf env) size]
             /\ nextBuf env' = S (nextBuf env)
             /\ forall f, r = Ok f -> bid f = nextBuf env)).
Proof.
  unfold genFrame. destruct (genFrame_path c op p).
  - intros [= <- <-]. split; [reflexivity|]. left. eauto.
  - unfold compressData, pool_Get. cbn [bbytes buf_set].
    destruct (Compress p) as [out|err].
    + destruct (_ >? _).
      * intros [= <- <-]. split; [reflexivity|]. right.
        eexists. cbn. repeat split. intros f [=].
      * destruct (GenerateHeader _ _ _ _ _ _) as [[h k] e2] eqn:G.
        apply GenerateHeader_env in G. cbn in G. destruct G as (Ht & Hn & Ho).
        intros [= <- <-]. split; [exact Ho|]. right.
        eexists. repeat split; [exact Ht | exact Hn |].
        intros f [= <-]. reflexivity.
    + intros [= <- <-]. split; [reflexivity|]. right.
      eexists. cbn. repeat split. intros f [=].
  - unfold genFrame_plain. destruct (_ >? _).
    + intros [= <- <-]. split; [reflexivity|]. left. eauto.
    + destruct (GenerateHeader _ _ _ _ _ _) as [[h k] e1] eqn:G.
      apply GenerateHeader_env in G. destruct G as (Ht & Hn & Ho).
      unfold pool_Get. cbn [bbytes buf_set].
      intros [= <- <-]. cbn. split; [exact Ho|]. right.
      eexists. rewrite Ht, Hn. repeat split.
      intros f [= <-]. reflexivity.
Qed.

Lemma genFrame_rejected_env c op p env e env' :
  genFrame c op p env = (Err e, env') ->
  nextBuf env' = nextBuf env -> env' = env.
Proof.
  unfold genFrame. destruct (genFrame_path c op p).
  - intros [= _ <-]. reflexivity.
  - unfold compressData, pool_Get. cbn [bbytes buf_set].
    destruct (Compress p) as [out|err].
    + destruct (_ >? _).
      * intros [= _ <-]. cbn. intros H. exfalso. eapply n_Sn. symmetry. exact H.
      * destruct (GenerateHeader _ _ _ _ _ _) as [[h k] e2]. intros [=].
    + intros [= _ <-]. cbn. intros H. exfalso. eapply n_Sn. symmetry. exact H.
  - unfold genFrame_plain. destruct (_ >? _).
    + intros [= _ <-]. reflexivity.
    + destruct (GenerateHeader _ _ _ _ _ _) as [[h k] e1].
      unfold pool_Get. cbn [bbytes buf_set]. intros [=].
Qed.

Lemma doWrite_effect c op p env r env' :
  doWrite c op p env = (r, env') -> doWrite_outcome c env r env'.
Proof.
  unfold doWrite. destruct (genFrame c op p env) as [[frame|e] env1] eqn:G.
  - pose proof (genFrame_effect _ _ _ _ G) as (Ho & [(_ & _ & e & [=])|(sz & Ht & Hn & Hid)]).
    unfold WriteN, net_op, pool_Put, emit. cbn.
    intros [= <- <-]. eapply dw_written; cbn.
    + rewrite Ho. reflexivity.
    + rewrite Ht, (Hid _ eq_refl), <- !app_assoc. reflexivity.
    + exact Hn.
    + rewrite Ho. reflexivity.
  - intros [= <- <-].
    pose proof (genFrame_effect _ _ _ _ G) as (Ho & [(Ht & Hn & _)|(sz & Ht & Hn & _)]).
    + eapply dw_rejected; [reflexivity|].
      eapply genFrame_rejected_env; eauto.
    + eapply dw_dropped; eauto.
Qed.

End Effects.

(** ** Counting events *)

Lemma count_app p (a b : list event) : count p (a ++ b) = (count p a + count p b)%nat.
Proof. unfold count. rewrite filter_app, length_app. reflexivity. Qed.

Lemma count_emit p ev env :
  count p (trace (emit ev env)) = (count p (trace env) + if p ev then 1 else 0)%nat.
Proof.
  unfold emit. cbn [trace]. rewrite count_app. unfold count. cbn.
  destruct (p ev); reflexivity.
Qed.

Lemma count_net_op {X : Externals} p ev env :
  count p (trace (snd (net_op ev env)))
  = (count p (trace env) + if p ev then 1 else 0)%nat.
Proof.
  unfold net_op. cbn [snd trace]. rewrite count_app. unfold count. cbn.
  destruct (p ev); reflexivity.
Qed.

Section CloseMachine.

Context {X : Externals}.

Lemma doWrite_no_OnClose c op p env r env' k :
  doWrite c op p env = (r, env') ->
  count (is_OnClose k) (trace env') = count (is_OnClose k) (trace env).
Proof.
  intros H. apply doWrite_effect in H.
  destruct H as [e -> ->|e sz _ Ht _ _|sz data _ Ht _ _]; [reflexivity| |];
    rewrite Ht, count_app; cbn; lia.
Qed.

Lemma doWrite_writes c op p env r env' k :
  doWrite c op p env = (r, env') ->
  (count (is_Write k) (trace env) <= count (is_Write k) (trace env')
   <= count (is_Write k) (trace env) + 1)%nat
  /\ (k <> sock c -> count (is_Write k) (trace env') = count (is_Write k) (trace env)).
Proof.
  intros H. apply doWrite_effect in H.
  destruct H as [e -> ->|e sz _ Ht _ _|sz data _ Ht _ _].
  - split; [lia|reflexivity].
  - rewrite Ht, count_app. cbn. split; lia.
  - rewrite Ht, count_app. unfold count. cbn.
    destruct (Nat.eqb_spec (sock c) k); cbn; split; lia.
Qed.

(** The buffers [doWrite] releases are the ones it has just acquired. *)
Lemma doWrite_puts c op p env r env' id :
  doWrite c op p env = (r, env') ->
  (nextBuf env <= nextBuf env')%nat
  /\ ((id < nextBuf env)%nat ->
      count (is_Put id) (trace env') = count (is_Put id) (trace env)).
Proof.
  intros H. apply doWrite_effect in H.
  destruct H as [e -> ->|e sz _ Ht Hn _|sz data _ Ht Hn _].
  - split; [lia|reflexivity].
  - rewrite Ht, Hn, count_app. cbn. split; lia.
  - rewrite Ht, Hn, count_app. unfold count. cbn. split; [lia|].
    intros Hid. destruct (Nat.eqb_spec (nextBuf env) id); cbn; lia.
Qed.

Lemma emitError_closed e c env :
  closed c <> 0 -> emitError e c env = (c, env).
Proof.
  intros H. destruct e as [e|]; [|reflexivity].
  unfold emitError. destruct (Z.eqb_spec (closed c) 0); [contradiction|reflexivity].
Qed.

Lemma emitError_open e c env :
  closed c = 0 ->
  emitError (Some e) c env
  = (set_closed c 1,
     emit (EvOnClose (sock c) (snd (emitError_response e)))
       (snd (net_op (EvSetDeadline (sock c) DeadlineBoth)
               (snd (doWrite (set_closed c 1) OpcodeCloseConnection
                       (emitError_content e) env))))).
Proof.
  intros H. unfold emitError. rewrite H. cbn [Z.eqb].
  destruct (doWrite _ _ _ _) as [r env1]. cbn [snd].
  destruct (net_op _ env1) as [r2 env2]. reflexivity.
Qed.

Lemma emitClose_closed p c env :
  closed c <> 0 -> emitClose p c env = (EStatusCode CloseNormalClosure, c, env).
Proof.
  intros H. unfold emitClose.
  destruct (emitClose_codes c p) as [[rc real] rest].
  destruct (Z.eqb_spec (closed c) 0); [contradiction|reflexivity].
Qed.

(** ** The error path on success *)

(** C10: [emitError] with a nil error changes nothing: the connection
    (its closed flag included) and the environment (no close frame, no
    [OnClose]) are returned as they were.  Hence a [WriteMessage] or a
    deadline setter that succeeds leaves the connection as it was, still
    open, with no [OnClose], although it passes its result through
    [emitError]. *)
Theorem emitError_nil_is_noop (c : Conn) (env : Env) :
  emitError None c env = (c, env)
  /\ (forall op p c' env',
         WriteMessage op p c env = (None, c', env') ->
         c' = c /\ isClosed c' = false
         /\ forall k, count (is_OnClose k) (trace env')
                      = count (is_OnClose k) (trace env))
  /\ (forall d c' env',
         set_deadline d c env = (None, c', env') ->
         c' = c /\ isClosed c' = false
         /\ forall k, count (is_OnClose k) (trace env')
                      = count (is_OnClose k) (trace env)).
Proof.
  split; [reflexivity|]. split.
  - intros op p c' env'. unfold WriteMessage.
    destruct (isClosed c) eqn:Hc; [intros [=]|].
    destruct (doWrite c op p env) as [err env1] eqn:D.
    destruct err as [e|].
    + destruct (emitError (Some e) c env1). intros [=].
    + cbn. intros [= <- <-]. repeat split; [exact Hc|].
      intros k. eapply doWrite_no_OnClose; eauto.
  - intros d c' env'. unfold set_deadline.
    destruct (isClosed c) eqn:Hc; [intros [=]|].
    destruct (net_op (EvSetDeadline (sock c) d) env) as [err env1] eqn:D.
    destruct err as [e|].
    + destruct (emitError (Some e) c env1). intros [=].
    + cbn. intros [= <- <-]. repeat split; [exact Hc|].
      intros k. replace env1 with (snd (net_op (EvSetDeadline (sock c) d) env))
        by (rewrite D; reflexivity).
      rewrite count_net_op. cbn. lia.
Qed.

End CloseMachine.

Lemma emitError_nil_is_noop_witness :
  let c := sample_conn 7 false (sample_config false 0 100) in
  let r := @WriteMessage sampleX OpcodeBinary [x01] c Env0 in
  fst (fst r) = None /\ snd (fst r) = c /\ isClosed (snd (fst r)) = false.
Proof.
  intros c r.
  destruct (@emitError_nil_is_noop sampleX c Env0) as (_ & H & _).
  destruct (H OpcodeBinary [x01] (snd (fst r)) (snd r)) as (Hc & Ho & _).
  - reflexivity.
  - split; [reflexivity | split; [exact Hc | exact Ho]].
Defined.

(** ** The close frame of an error *)

Section ErrorClose.

Context {X : Externals}.

Lemma emitError_content_shape (e : error) :
  (2 <= ThresholdV1)%nat ->
  exists b0 b1,
    StatusCode_Bytes (fst (emitError_response e)) = [b0; b1]
    /\ emitError_content e = b0 :: b1 :: firstn (ThresholdV1 - 2) (Error_text e).
Proof.
  intros HT. unfold emitError_content, StatusCode_Bytes, BigEndian_PutUint16.
  do 2 eexists. split; [reflexivity|].
  destruct ThresholdV1 as [|[|t]]; try lia.
  cbn [app List.length].
  replace (S (S t) - 2)%nat with t by lia.
  destruct (Nat.ltb_spec (S (S t)) (S (S (List.length (Error_text e))))).
  - reflexivity.
  - rewrite firstn_all2 by lia. reflexivity.
Qed.

(** C8: the payload of the close frame that [emitError] sends is the 2-byte
    big-endian status code followed by the text of the error; it is never
    longer than the threshold, and when status code and text together are
    longer, the status code is kept whole and the text is cut.  The write of
    that frame is attempted once and its own outcome is dropped: whatever it
    returns, the deadline is set and [OnClose] is called with the same
    error, and the socket sees at most one write. *)
Theorem emitError_close_payload (e : error) (c : Conn) (env : Env) :
  (2 <= ThresholdV1)%nat ->
  closed c = 0 ->
  let code := fst (emitError_response e) in
  let content := emitError_content e in
  let written := doWrite (set_closed c 1) OpcodeCloseConnection content env in
  (List.length content <= ThresholdV1)%nat
  /\ firstn 2 content = StatusCode_Bytes code
  /\ (0 <= code < 65536 -> BigEndian_Uint16 content = code)
  /\ skipn 2 content = firstn (ThresholdV1 - 2) (Error_text e)
  /\ emitError (Some e) c env
     = (set_closed c 1,
        emit (EvOnClose (sock c) (snd (emitError_response e)))
          (snd (net_op (EvSetDeadline (sock c) DeadlineBoth) (snd written))))
  /\ (count (is_Write (sock c)) (trace (snd (emitError (Some e) c env)))
      <= count (is_Write (sock c)) (trace env) + 1)%nat.
Proof.
  intros HT Hc code content written.
  destruct (emitError_content_shape e HT) as (b0 & b1 & Hb & Hcont).
  fold code in Hb. fold content in Hcont.
  repeat split.
  - rewrite Hcont. cbn [List.length]. rewrite length_firstn. lia.
  - rewrite Hcont, Hb. reflexivity.
  - intros Hcode. rewrite Hcont.
    change (b0 :: b1 :: firstn (ThresholdV1 - 2) (Error_text e))
      with ([b0; b1] ++ firstn (ThresholdV1 - 2) (Error_text e)).
    rewrite <- Hb. apply BigEndian_Uint16_Put. exact Hcode.
  - rewrite Hcont. reflexivity.
  - apply emitError_open. exact Hc.
  - rewrite emitError_open by exact Hc. cbn [snd].
    rewrite count_emit, count_net_op. cbn [is_Write].
    fold content.
    destruct (doWrite (set_closed c 1) OpcodeCloseConnection content env)
      as [r env1] eqn:D.
    apply (doWrite_writes _ _ _ _ (sock c)) in D. cbn [snd]. lia.
Qed.

End ErrorClose.

Lemma emitError_close_payload_witness :
  let e := EInternal CloseMessageTooLarge
             (Some (EOther (repeat x41 200))) in
  let content := @emitError_content sampleX e in
  List.length content = 125%nat
  /\ firstn 2 content = StatusCode_Bytes CloseMessageTooLarge
  /\ skipn 2 content = repeat x41 123.
Proof.
  intros e content.
  destruct (@emitError_close_payload sampleX e
              (sample_conn 0 false (sample_config false 0 1000)) Env0)
    as (Hlen & Hcode & _ & Htext & _).
  - cbn. lia.
  - reflexivity.
  - split; [reflexivity | split; [exact Hcode | exact Htext]].
Defined.

(** ** UTF-8 check of text frames *)

(** C9: with UTF-8 checking enabled, a text payload that is not valid UTF-8
    makes [genFrame] fail with the unsupported-data error and leaves the
    environment untouched: nothing was compressed, no buffer acquired,
    nothing written (and [doWrite] returns that error without a socket
    write).  With a valid payload, or with checking disabled, the check
    passes: [genFrame] goes on to the compression or the plain path. *)
Theorem genFrame_text_utf8_check {X : Externals} (c : Conn)
    (payload : list byte) (env : Env) :
  let unsupported := EInternal CloseUnsupportedData (Some ErrTextEncoding) in
  (CheckUtf8Enabled (config c) = true -> utf8_Valid payload = false ->
     genFrame c OpcodeText payload env = (Err unsupported, env)
     /\ doWrite c OpcodeText payload env = (Some unsupported, env))
  /\ (CheckUtf8Enabled (config c) = false \/ utf8_Valid payload = true ->
      genFrame_path c OpcodeText payload <> PathRejectText
      /\ genFrame c OpcodeText payload env
         = if compress_condition c OpcodeText payload
           then compressData c OpcodeText payload env
           else genFrame_plain c OpcodeText payload env).
Proof.
  intros unsupported. split.
  - intros Hchk Hbad.
    assert (G : genFrame c OpcodeText payload env = (Err unsupported, env)).
    { unfold genFrame, genFrame_path, isTextValid. rewrite Hchk, Hbad. reflexivity. }
    split; [exact G|]. unfold doWrite. rewrite G. reflexivity.
  - intros Hok.
    assert (V : isTextValid c OpcodeText payload = true).
    { unfold isTextValid. destruct Hok as [-> | ->]; [reflexivity|].
      destruct (negb _); reflexivity. }
    unfold genFrame, genFrame_path, compress_condition. rewrite V.
    cbn [Opcode_eqb negb andb]. rewrite Z.geb_leb.
    destruct (compressEnabled c && isDataFrame OpcodeText
              && (CompressThreshold (config c) <=? len payload));
      split; (discriminate || reflexivity).
Qed.

Lemma genFrame_text_utf8_check_witness :
  let c := sample_conn 0 true (sample_config true 0 1000) in
  @genFrame sampleX c OpcodeText [xc3; x28] Env0
  = (Err (EInternal CloseUnsupportedData (Some ErrTextEncoding)), Env0)
  /\ genFrame_path c OpcodeText [xc3; xa9] <> PathRejectText.
Proof.
  intros c. split.
  - apply (proj1 (@genFrame_text_utf8_check sampleX c [xc3; x28] Env0));
      reflexivity.
  - apply (proj2 (@genFrame_text_utf8_check sampleX c [xc3; xa9] Env0)).
    right. reflexivity.
Defined.

(** ** The paths of frame generation *)

Section FramePaths.

Context {X : Externals}.

Lemma genFrame_path_cases (c : Conn) (op : Opcode) (p : list byte) :
  genFrame_path c op p
  = if Opcode_eqb op OpcodeText && negb (isTextValid c op p) then PathRejectText
    else if compress_condition c op p then PathCompress
    else PathPlain.
Proof.
  unfold genFrame_path, compress_condition. rewrite Z.geb_leb. reflexivity.
Qed.

Lemma genFrame_path_not_rejected (c : Conn) (op : Opcode) (p : list byte) :
  genFrame_path c op p <> PathRejectText ->
  genFrame_path c op p
  = if compress_condition c op p then PathCompress else PathPlain.
Proof.
  rewrite genFrame_path_cases.
  destruct (Opcode_eqb op OpcodeText && negb (isTextValid c op p));
    [intros H; contradiction H; reflexivity | reflexivity].
Qed.

Lemma padded_payload_size (out : list byte) :
  len (([] ++ myPadding) ++ out) - Z.of_nat frameHeaderSize = len out.
Proof.
  unfold len, myPadding. cbn [app]. rewrite length_app, repeat_length. lia.
Qed.


End FramePaths.



(** ** RSV1 and the compression path *)

Section Compression.

Context {X : Externals}.

Lemma MaskXOR_from_length (b key : list byte) (i : nat) :
  List.length (MaskXOR_from i b key) = List.length b.
Proof.
  revert i. induction b as [|x r IH]; intros i; cbn; [reflexivity|].
  rewrite IH. reflexivity.
Qed.

Lemma header_length_field_ext (n : Z) :
  (List.length (snd (header_length_field n)) <= 8)%nat.
Proof.
  unfold header_length_field, BigEndian_PutUint16, BigEndian_PutUint64.
  destruct (n <=? 125); [cbn [snd List.length]; lia|].
  destruct (n <=? 65535); cbn [snd List.length map]; lia.
Qed.

Lemma GenerateHeader_shape isS fin cmp op n env h k env' :
  GenerateHeader isS fin cmp op n env = (h, k, env') ->
  (List.length h <= frameHeaderSize)%nat
  /\ exists b1 rest,
       h = byte_of_Z ((if fin then 128 else 0)
                      + (if cmp && isDataFrame op then 64 else 0)
                      + Opcode_tag op) :: b1 :: rest.
Proof.
  unfold GenerateHeader.
  pose proof (header_length_field_ext n) as Hext. revert Hext.
  destruct (header_length_field n) as [l7 ext]. cbn [snd]. intros Hext.
  destruct isS.
  - intros [= <- <- <-]. split; [unfold frameHeaderSize; cbn; lia | eauto].
  - destruct (newMaskKey (maskOps env)) as [[[k0 k1] k2] k3].
    intros [= <- <- <-]. split; [|eauto].
    unfold frameHeaderSize. cbn [List.length]. rewrite length_app. cbn. lia.
Qed.

Lemma RSV1_of_first_byte (cmp : bool) (op : Opcode) :
  Z.testbit (Z_of_byte (byte_of_Z (128 + (if cmp && isDataFrame op then 64 else 0)
                                   + Opcode_tag op))) 6
  = cmp && isDataFrame op.
Proof.
  destruct cmp, op; reflexivity.
Qed.

(** Backfilling the header in front of the compressed bytes and dropping
    the unused padding leaves the header followed by those bytes. *)
Lemma backfill_header (contents header : list byte) :
  (List.length header <= frameHeaderSize)%nat ->
  (frameHeaderSize <= List.length contents)%nat ->
  skipn (frameHeaderSize - List.length header)
    (copy_at contents (frameHeaderSize - List.length header) header)
  = header ++ skipn frameHeaderSize contents.
Proof.
  intros Hh Hc. unfold copy_at.
  set (a := (frameHeaderSize - List.length header)%nat).
  replace (Nat.min (List.length header) (List.length contents - a))
    with (List.length header) by (subst a; lia).
  rewrite firstn_all.
  replace (a + List.length header)%nat with frameHeaderSize by (subst a; lia).
  rewrite skipn_app, length_firstn.
  replace (Nat.min a (List.length contents)) with a by (subst a; lia).
  rewrite Nat.sub_diag. cbn [skipn].
  rewrite skipn_all2 by (rewrite length_firstn; lia).
  reflexivity.
Qed.

Lemma compressData_RSV1 c op p env frame env' :
  isDataFrame op = true ->
  compressData c op p env = (Ok frame, env') ->
  frame_RSV1 (bbytes frame) = true.
Proof.
  intros Hop. unfold compressData, pool_Get.
  assert (Hpad : List.length myPadding = frameHeaderSize)
    by (unfold myPadding; apply repeat_length).
  remember frameHeaderSize as fhs eqn:Hfhs.
  remember myPadding as pad eqn:Hp.
  cbn [bbytes buf_set].
  destruct (Compress p) as [out|err]; [|intros [=]].
  destruct (_ >? _); [intros [=]|].
  destruct (GenerateHeader _ _ _ _ _ _) as [[h k] e2] eqn:G.
  apply GenerateHeader_shape in G. destruct G as (Hlen & b1 & rest & Hh).
  rewrite <- Hfhs in Hlen.
  intros H. injection H as <- <-. cbn [bbytes]. subst fhs.
  rewrite backfill_header.
  - rewrite Hh. destruct op; try discriminate Hop; reflexivity.
  - exact Hlen.
  - destruct (negb (isServer c)).
    + rewrite length_app, length_firstn. unfold MaskXOR.
      rewrite MaskXOR_from_length, length_skipn.
      cbn [app]. rewrite length_app. lia.
    + cbn [app]. rewrite length_app. lia.
Qed.

Lemma genFrame_plain_RSV1 c op p env frame env' :
  genFrame_plain c op p env = (Ok frame, env') ->
  frame_RSV1 (bbytes frame) = false.
Proof.
  unfold genFrame_plain. destruct (_ >? _); [intros [=]|].
  destruct (GenerateHeader _ _ _ _ _ _) as [[h k] e1] eqn:G.
  apply GenerateHeader_shape in G. destruct G as (_ & b1 & rest & Hh).
  unfold pool_Get. cbn [bbytes buf_set]. intros [= <- <-]. cbn [bbytes].
  rewrite Hh. destruct (negb (isServer c)), op; reflexivity.
Qed.

(** C5, as the code has it: for a write call that passes the UTF-8 check of
    text frames, [genFrame] takes the compression path if and only if
    compression is enabled, the opcode is text or binary and the payload is
    at least [CompressThreshold] long; and the frame it generates has RSV1
    set exactly in that case. *)
Theorem compression_path_decision (c : Conn) (op : Opcode) (p : list byte)
    (env : Env) :
  genFrame_path c op p <> PathRejectText ->
  compression_rule c op p env.
Proof.
  intros Hpath. apply genFrame_path_not_rejected in Hpath.
  split.
  - rewrite Hpath. destruct (compress_condition c op p); split;
      (reflexivity || discriminate).
  - intros frame env'. unfold genFrame. rewrite Hpath.
    destruct (compress_condition c op p) eqn:Hcond.
    + apply compressData_RSV1.
      unfold compress_condition in Hcond.
      destruct (compressEnabled c), (isDataFrame op); (reflexivity || discriminate).
    + apply genFrame_plain_RSV1.
Qed.

End Compression.

Lemma compression_path_decision_witness :
  let c := sample_conn 0 true (sample_config true 4 1000) in
  genFrame_path c OpcodeBinary [x01; x02; x03; x04] = PathCompress
  /\ genFrame_path c OpcodeBinary [x01; x02; x03] = PathPlain
  /\ frame_RSV1 (match fst (@genFrame sampleX c OpcodeBinary [x01; x02; x03; x04] Env0) with
                 | Ok frame => bbytes frame
                 | Err _ => []
                 end) = true.
Proof.
  intros c.
  destruct (@compression_path_decision sampleX c OpcodeBinary
              [x01; x02; x03; x04] Env0) as (Hiff & Hrsv).
  - discriminate.
  - split; [apply Hiff; reflexivity|]. split; [reflexivity|].
    destruct (@genFrame sampleX c OpcodeBinary [x01; x02; x03; x04] Env0)
      as [[frame|e] env'] eqn:G.
    + cbn [fst]. rewrite (Hrsv frame env' eq_refl). reflexivity.
    + discriminate G.
Defined.

(** C5, as stated, fails: with compression enabled and the threshold
    reached, a text payload that is not valid UTF-8 never reaches the
    compression path; the UTF-8 check rejects it first. *)
Lemma invalid_text_is_not_compressed :
  let c := sample_conn 0 true (sample_config true 0 1000) in
  compress_condition c OpcodeText [xff] = true
  /\ @genFrame sampleX c OpcodeText [xff] Env0
     = (Err (EInternal CloseUnsupportedData (Some ErrTextEncoding)), Env0)
  /\ ~ @compression_rule sampleX c OpcodeText [xff] Env0.
Proof.
  intros c. split; [reflexivity|]. split; [reflexivity|].
  intros (Hiff & _). assert (H : genFrame_path c OpcodeText [xff] = PathCompress)
    by (apply Hiff; reflexivity).
  discriminate H.
Qed.

(** ** Writes on a closed connection *)

Section ClosedWrites.

Context {X : Externals}.

(** [WriteMessage] fails fast on a closed connection. *)
Lemma WriteMessage_closed op p c env :
  closed c = 1 ->
  WriteMessage op p c env = (Some ErrConnClosed, c, env).
Proof.
  intros H. unfold WriteMessage, isClosed. rewrite H. reflexivity.
Qed.

(** [WriteAsync] does not look at [closed]: whenever the frame can be
    built it acquires a buffer, queues the task and returns nil. *)
Lemma WriteAsync_ignores_closed op p c env frame env1 :
  genFrame c op p env = (Ok frame, env1) ->
  WriteAsync op p c env = (None, push_task c (TaskWriteAsync frame), env1).
Proof.
  intros G. unfold WriteAsync. rewrite G. reflexivity.
Qed.

(** The queued task of a closed connection returns at once: no write, and
    no release of the buffer it holds. *)
Lemma run_WriteAsync_task_closed frame c env :
  closed c = 1 -> run_WriteAsync_task frame c env = (c, env).
Proof.
  intros H. unfold run_WriteAsync_task, isClosed. rewrite H. reflexivity.
Qed.

(** When the compressor fails, [compressData] returns holding the buffer it
    acquired. *)
Lemma compressData_error_keeps_buffer c op p env err :
  Compress p = Err err ->
  exists size,
    compressData c op p env
    = (Err err,
       {| trace := trace env ++ [EvGet (nextBuf env) size];
          nextBuf := S (nextBuf env);
          netOps := netOps env; maskOps := maskOps env |}).
Proof.
  intros H. unfold compressData, pool_Get. rewrite H. eexists. reflexivity.
Qed.

(** A write that reaches the socket releases its buffer exactly once. *)
Lemma doWrite_releases_once c op p env frame env1 :
  genFrame c op p env = (Ok frame, env1) ->
  let env' := snd (doWrite c op p env) in
  count (is_Get (nextBuf env)) (trace env')
  = S (count (is_Get (nextBuf env)) (trace env))
  /\ count (is_Put (nextBuf env)) (trace env')
     = S (count (is_Put (nextBuf env)) (trace env)).
Proof.
  intros G env'.
  destruct (doWrite c op p env) as [r e'] eqn:D. subst env'. cbn [snd].
  pose proof (doWrite_effect _ _ _ _ D) as O.
  unfold doWrite in D. rewrite G in D.
  destruct O as [e He ->|e sz He Ht _ Hops|sz data _ Ht _ _].
  - cbn in D. injection D as _ D. exfalso.
    apply (f_equal trace) in D. cbn in D.
    pose proof (genFrame_effect _ _ _ _ G) as (_ & [(_ & _ & e0 & [=])|(s0 & Ht & _)]).
    rewrite Ht in D. apply (f_equal (@List.length event)) in D.
    rewrite !length_app in D. cbn in D. lia.
  - cbn in D. injection D as _ D. exfalso.
    apply (f_equal netOps) in D. cbn in D.
    pose proof (genFrame_effect _ _ _ _ G) as (Ho & _). lia.
  - rewrite Ht, !count_app. unfold count. cbn.
    rewrite Nat.eqb_refl. cbn. lia.
Qed.

End ClosedWrites.

(** C3, evaluated: on a closed connection [WriteMessage] returns the
    connection-closed error and leaves the environment alone, but
    [WriteAsync] returns nil, having acquired a buffer and queued a task;
    neither touches the socket. *)
Theorem WriteAsync_closed_returns_nil :
  let c := set_closed (sample_conn 0 false (sample_config false 0 100)) 1 in
  isClosed c = true
  /\ @WriteMessage sampleX OpcodeBinary [x01] c Env0 = (Some ErrConnClosed, c, Env0)
  /\ fst (fst (@WriteAsync sampleX OpcodeBinary [x01] c Env0)) = None
  /\ List.length (writeQueue (snd (fst (@WriteAsync sampleX OpcodeBinary [x01] c Env0))))
     = 1%nat
  /\ trace (snd (@WriteAsync sampleX OpcodeBinary [x01] c Env0)) = [EvGet 0 3].
Proof.
  repeat split.
Qed.

(** ** Buffers that are never released *)

(** C6, evaluated: the buffer acquired by [WriteAsync] (identity 0) is
    never released when its task runs after the connection was closed,
    while the buffer of the close frame (identity 1) is released once.  The
    same happens on the compression path when the compressor fails or the
    compressed payload is too large: [genFrame] returns with the buffer
    acquired and not released. *)
Theorem closed_async_task_leaks_buffer :
  leaked (snd async_then_close) = [0%nat]
  /\ count (is_Get 0) (trace (snd async_then_close)) = 1%nat
  /\ count (is_Put 0) (trace (snd async_then_close)) = 0%nat
  /\ count (is_Put 1) (trace (snd async_then_close)) = 1%nat
  /\ writeQueue (fst async_then_close) = []
  /\ leaked (snd (@doWrite failingX (sample_conn 0 true (sample_config false 0 100))
                    OpcodeBinary [x01] Env0)) = [0%nat]
  /\ leaked (snd (@doWrite sampleX (sample_conn 0 true (sample_config false 0 1))
                    OpcodeBinary [x01; x02] Env0)) = [0%nat].
Proof.
  repeat split.
Qed.

(** ** Exactly one close *)







Section ExactlyOnce.

Context {X : Externals}.

Lemma apply_trigger_closed t c env :
  closed c <> 0 -> apply_trigger t c env = (c, env).
Proof.
  intros H. destruct t; cbn [apply_trigger].
  - apply emitError_closed; exact H.
  - apply emitError_closed; exact H.
  - rewrite emitClose_closed by exact H. reflexivity.
  - unfold WriteClose. apply emitError_closed; exact H.
Qed.






End ExactlyOnce.


Section Sequential.

Context {X : Externals}.

(** A goroutine scheduled alone does what the call it stands for does. *)
Lemma goroutine_alone t c env :
  closed c = 0 ->
  run_schedule [0; 0; 0; 0]%nat [Waiting t] c env
  = ([Running []], fst (apply_trigger t c env), snd (apply_trigger t c env)).
Proof.
  intros H0.
  assert (E : forall t e,
             trigger_actions t c
             = [ActWrite (emitError_content e); ActDeadline;
                ActOnClose (snd (emitError_response e))] ->
             run_schedule [0; 0; 0; 0]%nat [Waiting t] c env
             = ([Running []], fst (emitError (Some e) c env),
                snd (emitError (Some e) c env))).
  { intros t0 e Ht. rewrite emitError_open by exact H0.
    cbn [run_schedule step_at nth_error step_goroutine update_nth].
    rewrite H0, Ht. cbn [Z.eqb].
    cbn [run_schedule step_at nth_error step_goroutine update_nth do_action
         sock set_closed fst snd].
    reflexivity. }
  destruct t as [e|e|payload|code reason].
  - apply E. reflexivity.
  - apply E. reflexivity.
  - cbn [apply_trigger]. unfold emitClose.
    cbn [run_schedule step_at nth_error step_goroutine update_nth trigger_actions].
    rewrite H0. cbn [Z.eqb].
    destruct (emitClose_codes c payload) as [[rc real] rest].
    cbn [run_schedule step_at nth_error step_goroutine update_nth do_action
         sock set_closed fst snd].
    destruct (doWrite _ _ _ _) as [r env1]. reflexivity.
  - cbn [apply_trigger]. unfold WriteClose.
    destruct (0 <? List.length reason)%nat eqn:Hr; apply E;
      cbn [trigger_actions]; rewrite Hr; reflexivity.
Qed.

(** Applied one after the other, the first trigger closes the connection
    and every later one changes nothing. *)
Lemma run_triggers_first_wins t ts c env :
  closed c = 0 ->
  run_triggers (t :: ts) c env = apply_trigger t c env
  /\ closed (fst (apply_trigger t c env)) = 1.
Proof.
  intros H0.
  assert (H1 : closed (fst (apply_trigger t c env)) = 1).
  { destruct t as [e|e|payload|code reason]; cbn [apply_trigger].
    - rewrite emitError_open by exact H0. reflexivity.
    - rewrite emitError_open by exact H0. reflexivity.
    - unfold emitClose. destruct (emitClose_codes c payload) as [[rc real] rest].
      rewrite H0. cbn [Z.eqb]. destruct (doWrite _ _ _ _). reflexivity.
    - unfold WriteClose. rewrite emitError_open by exact H0. reflexivity. }
  split; [|exact H1].
  cbn [run_triggers]. destruct (apply_trigger t c env) as [c1 env1].
  cbn [fst] in H1. clear H0.
  induction ts as [|t' ts IH]; cbn [run_triggers]; [reflexivity|].
  rewrite apply_trigger_closed by lia. exact IH.
Qed.

End Sequential.

(** ** The Broadcaster's counter *)

Lemma update_nth_same {A : Type} (l : list A) (i : nat) (x : A) :
  nth_error l i = Some x -> update_nth l i x = l.
Proof.
  revert i. induction l as [|y r IH]; intros [|i]; cbn; try discriminate.
  - intros [= ->]. reflexivity.
  - intros H. rewrite (IH _ H). reflexivity.
Qed.

Lemma list_sum_update {A : Type} (f : A -> nat) (l : list A) (i : nat) (x x' : A) :
  nth_error l i = Some x ->
  (list_sum (map f (update_nth l i x')) + f x = list_sum (map f l) + f x')%nat.
Proof.
  revert i.
  induction l as [|y r IH]; intros [|i]; cbn [update_nth map nth_error];
    try discriminate.
  - intros [= ->]. change (list_sum (?a :: ?t)) with (a + list_sum t)%nat. lia.
  - intros H. specialize (IH _ H).
    change (list_sum (?a :: ?t)) with (a + list_sum t)%nat. lia.
Qed.

Lemma Forall_update_nth {A : Type} (P : A -> Prop) (l : list A) (i : nat) (x : A) :
  Forall P l -> P x -> Forall P (update_nth l i x).
Proof.
  intros H Hx. revert i.
  induction H as [|y r Hy Hr IH]; intros [|i]; cbn; auto.
Qed.

Lemma Forall_nth_error {A : Type} (P : A -> Prop) (l : list A) (i : nat) (x : A) :
  Forall P l -> nth_error l i = Some x -> P x.
Proof.
  intros H Hn. rewrite Forall_forall in H. apply H.
  eapply nth_error_In; eauto.
Qed.

Lemma wrap64_small (z : Z) : - 2 ^ 63 <= z < 2 ^ 63 -> wrap64 z = z.
Proof.
  intros H. unfold wrap64. rewrite Z.mod_small; lia.
Qed.

Section Puts.

Context {X : Externals}.

Lemma genFrame_puts c op p env r env' :
  genFrame c op p env = (r, env') ->
  (nextBuf env <= nextBuf env')%nat
  /\ (forall id, count (is_Put id) (trace env') = count (is_Put id) (trace env))
  /\ (forall f, r = Ok f -> bid f = nextBuf env /\ nextBuf env' = S (nextBuf env)).
Proof.
  intros G. pose proof (genFrame_effect _ _ _ _ G)
    as (_ & [(Ht & Hn & e & ->)|(sz & Ht & Hn & Hid)]).
  - rewrite Ht, Hn. split; [lia|]. split; [reflexivity|]. intros f [=].
  - rewrite Ht, Hn. split; [lia|]. split.
    + intros id. rewrite count_app. cbn. lia.
    + intros f Hf. split; [apply Hid; exact Hf | reflexivity].
Qed.

Lemma doWrite_fresh c op p env r env' :
  doWrite c op p env = (r, env') -> puts_fresh env -> puts_fresh env'.
Proof.
  intros D F id. apply doWrite_effect in D.
  destruct D as [e _ ->|e sz _ Ht Hn _|sz data _ Ht Hn _].
  - apply F.
  - rewrite Ht, Hn, count_app. intros H. rewrite F by lia. reflexivity.
  - rewrite Ht, Hn, count_app. intros H. rewrite F by lia.
    unfold count. cbn. destruct (Nat.eqb_spec (nextBuf env) id); [lia|reflexivity].
Qed.

(** What [emitError] does to the pool: it releases only buffers it has
    itself acquired. *)
Lemma emitError_puts e c env c' env' :
  emitError e c env = (c', env') ->
  writeQueue c' = writeQueue c
  /\ (nextBuf env <= nextBuf env')%nat
  /\ (forall id, (id < nextBuf env)%nat ->
                 count (is_Put id) (trace env') = count (is_Put id) (trace env))
  /\ (puts_fresh env -> puts_fresh env').
Proof.
  destruct e as [e|]; [|intros [= <- <-]; repeat split; auto].
  destruct (Z.eq_dec (closed c) 0) as [H0|H0].
  - rewrite emitError_open by exact H0.
    destruct (doWrite (set_closed c 1) OpcodeCloseConnection (emitError_content e) env)
      as [r env1] eqn:D.
    cbn [snd]. intros E.
    pose proof (f_equal fst E) as E1. pose proof (f_equal snd E) as E2.
    cbn [fst snd] in E1, E2. subst c' env'. clear E.
    assert (P : forall id, (nextBuf env <= nextBuf env1)%nat
                /\ ((id < nextBuf env)%nat ->
                    count (is_Put id) (trace env1) = count (is_Put id) (trace env)))
      by (intros id; exact (doWrite_puts _ _ _ _ id D)).
    assert (F : puts_fresh env -> puts_fresh env1)
      by (eapply doWrite_fresh; exact D).
    split; [reflexivity|]. split; [apply (P 0%nat)|]. split.
    + intros id Hid. rewrite count_emit, count_net_op. cbn.
      rewrite (proj2 (P id) Hid). lia.
    + intros Hf id Hid. rewrite count_emit, count_net_op. cbn.
      cbn in Hid. rewrite (F Hf id Hid). reflexivity.
  - rewrite emitError_closed by exact H0. intros [= <- <-]. repeat split; auto.
Qed.

Lemma doClose_item_puts item env id :
  nextBuf (doClose_item item env) = nextBuf env
  /\ count (is_Put id) (trace (doClose_item item env))
     = (count (is_Put id) (trace env)
        + List.length (filter (fun f => Nat.eqb (bid f) id) (cached item)))%nat.
Proof.
  destruct item as [[f|e]|]; cbn [doClose_item cached].
  - unfold pool_Put. rewrite count_emit. cbn.
    destruct (Nat.eqb (bid f) id); auto.
  - rewrite count_emit. cbn. auto.
  - cbn. auto.
Qed.

Lemma doClose_puts b env id :
  nextBuf (doClose b env) = nextBuf env
  /\ count (is_Put id) (trace (doClose b env))
     = (count (is_Put id) (trace env) + occurrences id b)%nat.
Proof.
  unfold doClose, occurrences, cached_frames.
  destruct (doClose_item_puts (fst (msgs b)) env id) as (N1 & C1).
  destruct (doClose_item_puts (snd (msgs b)) (doClose_item (fst (msgs b)) env) id)
    as (N2 & C2).
  rewrite N2, N1, C2, C1, filter_app, length_app. split; lia.
Qed.

End Puts.

Lemma occurrences_fresh id b n :
  (forall f, In f (cached_frames b) -> (bid f < n)%nat) ->
  (n <= id)%nat -> occurrences id b = 0%nat.
Proof.
  unfold occurrences. intros H Hid.
  induction (cached_frames b) as [|f r IH]; [reflexivity|].
  cbn. destruct (Nat.eqb_spec (bid f) id) as [E|E].
  - specialize (H f (or_introl eq_refl)). lia.
  - apply IH. intros g Hg. apply H. right. exact Hg.
Qed.

Lemma occurrences_cached f b :
  (forall f0 f1, fst (msgs b) = Some (Ok f0) ->
                 snd (msgs b) = Some (Ok f1) -> bid f0 <> bid f1) ->
  In f (cached_frames b) -> occurrences (bid f) b = 1%nat.
Proof.
  unfold occurrences, cached_frames. intros D.
  destruct (fst (msgs b)) as [[f0|e0]|], (snd (msgs b)) as [[f1|e1]|];
    cbn [cached app In filter];
    try specialize (D _ _ eq_refl eq_refl);
    intros H; repeat (destruct H as [<-|H]); try contradiction;
    repeat match goal with
      | |- context [Nat.eqb ?a ?b] => destruct (Nat.eqb_spec a b)
      end;
    cbn [List.length]; congruence.
Qed.

Lemma pending_update cs i c c' :
  nth_error cs i = Some c ->
  (pending (update_nth cs i c')
   + List.length (filter is_broadcast_task (writeQueue c))
   = pending cs + List.length (filter is_broadcast_task (writeQueue c')))%nat.
Proof.
  intros H. unfold pending.
  exact (list_sum_update
           (fun c => List.length (filter is_broadcast_task (writeQueue c)))
           cs i c' H).
Qed.

Lemma broadcast_inv_weaken rel m m' w :
  broadcast_inv rel m w -> (m <= m')%nat -> broadcast_inv rel m' w.
Proof.
  intros [] H. constructor; auto. lia.
Qed.

Lemma cached_frames_set_msg b idx msg f :
  get_msg b idx = None ->
  In f (cached_frames (set_msg b idx msg)) ->
  In f (cached_frames b) \/ msg = Ok f.
Proof.
  unfold cached_frames, get_msg, set_msg. cbn [msgs].
  destruct idx as [|idx]; intros Hn; rewrite ?Hn; cbn [fst snd cached app];
    intros H; apply in_app_or in H; destruct H as [H|H].
  - destruct msg as [g|e]; cbn in H; [destruct H as [<-|[]]; auto | contradiction].
  - left. exact H.
  - left. apply in_or_app. left. exact H.
  - destruct msg as [g|e]; cbn in H; [destruct H as [<-|[]]; auto | contradiction].
Qed.

Section BroadcastSteps.

Context {X : Externals}.

Lemma Broadcast_inv m w i socket r b' socket' env' :
  broadcast_inv false m w ->
  Z.of_nat m < 2 ^ 62 ->
  nth_error (conns w) i = Some socket ->
  Broadcast (bc w) socket (wenv w) = (r, b', socket', env') ->
  broadcast_inv false (S m)
    {| conns := update_nth (conns w) i socket'; bc := b'; wenv := env' |}.
Proof.
  intros Inv Hm Hn. unfold Broadcast.
  set (idx := if compressEnabled socket then 1%nat else 0%nat).
  (* the wrapper looked up, or built, and the invariant with it in place *)
  assert (Hbuilt : forall b1 (msg : broadcastMessageWrapper) env1,
             match get_msg (bc w) idx with
             | Some msg => (bc w, msg, wenv w)
             | None =>
                 let '(msg, env) :=
                   genFrame socket (b_opcode (bc w)) (b_payload (bc w)) (wenv w) in
                 (set_msg (bc w) idx msg, msg, env)
             end = (b1, msg, env1) ->
             state b1 = state (bc w)
             /\ broadcast_inv false m {| conns := conns w; bc := b1; wenv := env1 |}).
  { intros b1 msg env1.
    destruct (get_msg (bc w) idx) as [msg0|] eqn:Hmsg.
    - intros [= <- <- <-]. split; [reflexivity|]. destruct w; exact Inv.
    - destruct (genFrame socket (b_opcode (bc w)) (b_payload (bc w)) (wenv w))
        as [msg0 env0] eqn:G.
      intros [= <- <- <-]. split; [reflexivity|].
      pose proof (genFrame_puts _ _ _ _ G) as (Hmono & Hcnt & Hid).
      destruct Inv as [Ist Ibd Itk Ifr Idi Ica].
      constructor; cbn [conns bc wenv]; auto.
      + intros id Hle. rewrite Hcnt. apply Ifr. lia.
      + intros f0 f1. unfold set_msg. cbn [msgs].
        unfold get_msg in Hmsg.
        destruct idx as [|idx']; cbn [fst snd]; intros H0 H1.
        * injection H0 as ->. destruct (Hid _ eq_refl) as (Hb & _).
          assert (In f1 (cached_frames (bc w))).
          { unfold cached_frames. rewrite H1. apply in_or_app. right. left. reflexivity. }
          apply Ica in H. lia.
        * injection H1 as ->. destruct (Hid _ eq_refl) as (Hb & _).
          assert (In f0 (cached_frames (bc w))).
          { unfold cached_frames. rewrite H0. apply in_or_app. left. left. reflexivity. }
          apply Ica in H. lia.
      + intros f Hf. cbn [andb].
        eapply cached_frames_set_msg in Hf; [|exact Hmsg]. destruct Hf as [Hf| ->].
        * apply Ica in Hf. destruct Hf as (Hlt & Hc). cbn [andb] in Hc.
          rewrite Hcnt. split; [lia | exact Hc].
        * destruct (Hid _ eq_refl) as (Hb & Hn1). rewrite Hcnt, Hb, Hn1.
          split; [lia | apply Ifr; lia]. }
  destruct (match get_msg (bc w) idx with
            | Some msg => (bc w, msg, wenv w)
            | None => _
            end) as [[b1 msg] env1] eqn:E.
  destruct (Hbuilt _ _ _ eq_refl) as (Hst & Inv1). clear Hbuilt E.
  destruct msg as [frame|err]; intros [= <- <- <- <-].
  - destruct Inv1 as [Ist Ibd Itk Ifr Idi Ica]. cbn [conns bc wenv] in *.
    pose proof (pending_update (conns w) i
                  (push_task socket (TaskBroadcast frame)) Hn) as Hp.
    cbn [push_task writeQueue] in Hp.
    rewrite filter_app, length_app in Hp. cbn [filter is_broadcast_task List.length] in Hp.
    constructor; cbn [conns bc wenv add_state state msgs andb]; auto.
    + rewrite Ist. rewrite wrap64_small; unfold MaxInt32; lia.
    + lia.
    + apply Forall_update_nth; [exact Itk|].
      cbn [push_task writeQueue]. rewrite forallb_app.
      pose proof (@Forall_nth_error _ _ _ _ _ Itk Hn) as Hq. cbn beta in Hq.
      rewrite Hq. reflexivity.
  - rewrite (update_nth_same _ _ Hn).
    apply broadcast_inv_weaken with m; [exact Inv1 | lia].
Qed.

End BroadcastSteps.

Section BroadcastTasks.

Context {X : Externals}.

(** The write a broadcast task makes, and the close it may trigger, leave
    the buffers handed out before it alone. *)
Lemma broadcast_write_puts frame socket env socket1 env1 :
  (if negb (isClosed socket) then
     let '(err, env) := WriteN (sock socket) (bbytes frame) env in
     emitError err socket env
   else (socket, env)) = (socket1, env1) ->
  writeQueue socket1 = writeQueue socket
  /\ (nextBuf env <= nextBuf env1)%nat
  /\ (forall id, (id < nextBuf env)%nat ->
                 count (is_Put id) (trace env1) = count (is_Put id) (trace env))
  /\ (puts_fresh env -> puts_fresh env1).
Proof.
  destruct (negb (isClosed socket)).
  - unfold WriteN.
    destruct (net_op (EvWrite (sock socket) (bbytes frame)) env) as [err env0] eqn:N.
    assert (E0 : env0 = snd (net_op (EvWrite (sock socket) (bbytes frame)) env))
      by (rewrite N; reflexivity).
    intros E. destruct (emitError_puts _ _ _ E) as (Hq & Hmono & Hcnt & Hfr).
    assert (Hn0 : nextBuf env0 = nextBuf env) by (rewrite E0; reflexivity).
    assert (Hc0 : forall id, count (is_Put id) (trace env0)
                             = count (is_Put id) (trace env)).
    { intros id. rewrite E0, count_net_op. cbn. lia. }
    split; [exact Hq|]. split; [lia|]. split.
    + intros id Hid. rewrite Hcnt by lia. apply Hc0.
    + intros F. apply Hfr. intros id Hid. rewrite Hc0. apply F. lia.
  - intros E. apply pair_equal_spec in E. destruct E as [<- <-].
    repeat split; auto.
Qed.

Lemma run_Broadcast_task_inv rel m w i socket frame q b' socket' env' :
  broadcast_inv rel m w ->
  Z.of_nat m < 2 ^ 62 ->
  nth_error (conns w) i = Some socket ->
  writeQueue socket = TaskBroadcast frame :: q ->
  run_Broadcast_task frame (bc w) (pop_task socket) (wenv w) = (b', socket', env') ->
  broadcast_inv rel m
    {| conns := update_nth (conns w) i socket'; bc := b'; wenv := env' |}.
Proof.
  intros [Ist Ibd Itk Ifr Idi Ica] Hm Hn Hq. unfold run_Broadcast_task.
  destruct (if negb (isClosed (pop_task socket)) then _ else _)
    as [socket1 env1] eqn:W.
  apply broadcast_write_puts in W. destruct W as (Hq1 & Hmono & Hcnt & Hfr).
  cbn [pop_task writeQueue] in Hq1. rewrite Hq in Hq1. cbn [tl] in Hq1.
  pose proof (pending_update (conns w) i socket1 Hn) as Hp.
  rewrite Hq, Hq1 in Hp. cbn [filter is_broadcast_task List.length] in Hp.
  pose proof (@Forall_nth_error _ _ _ _ _ Itk Hn) as Hall. cbn beta in Hall.
  rewrite Hq in Hall. cbn [forallb is_broadcast_task andb] in Hall.
  set (cs' := update_nth (conns w) i socket1) in *.
  assert (Hst : state (add_state (bc w) (-1))
                = (if rel then 0 else MaxInt32) + Z.of_nat (pending cs')).
  { cbn [add_state state]. rewrite Ist.
    rewrite wrap64_small; destruct rel; unfold MaxInt32; lia. }
  assert (Htk : Forall (fun c => forallb is_broadcast_task (writeQueue c) = true) cs').
  { apply Forall_update_nth; [exact Itk|]. rewrite Hq1. exact Hall. }
  assert (Hold : forall f, In f (cached_frames (bc w)) ->
                   (bid f < nextBuf env1)%nat
                   /\ count (is_Put (bid f)) (trace env1) = 0%nat).
  { intros f Hf. destruct (Ica f Hf) as (Hlt & Hc).
    split; [lia|]. rewrite Hcnt by exact Hlt. rewrite Hc.
    destruct (Nat.eqb_spec (pending (conns w)) 0); [lia|].
    rewrite andb_false_r. reflexivity. }
  destruct (Z.eqb_spec (state (add_state (bc w) (-1))) 0) as [Hz|Hz];
    intros E; apply pair_equal_spec in E; destruct E as [E <-];
    apply pair_equal_spec in E; destruct E as [<- <-].
  - (* the last write in flight after Release: the frames are released *)
    assert (Hrel : rel = true /\ pending cs' = 0%nat).
    { rewrite Hst in Hz. destruct rel; unfold MaxInt32 in Hz; [split|]; lia. }
    destruct Hrel as (-> & Hp0).
    constructor; cbn [conns bc wenv add_state msgs]; fold cs'; auto.
    + lia.
    + intros id Hid.
      destruct (doClose_puts (add_state (bc w) (-1)) env1 id) as (Hn1 & ->).
      rewrite Hn1 in Hid. rewrite (Hfr Ifr id Hid).
      rewrite (@occurrences_fresh id _ (nextBuf env1)); [reflexivity| |exact Hid].
      intros f Hf. apply Hold. exact Hf.
    + intros f Hf.
      destruct (doClose_puts (add_state (bc w) (-1)) env1 (bid f)) as (Hn1 & ->).
      rewrite Hn1. destruct (Hold f Hf) as (Hlt & ->).
      split; [exact Hlt|].
      rewrite (@occurrences_cached f (add_state (bc w) (-1)) Idi Hf).
      rewrite Hp0. reflexivity.
  - constructor; cbn [conns bc wenv add_state msgs]; fold cs'; auto.
    + lia.
    + intros f Hf. destruct (Hold f Hf) as (Hlt & ->). split; [exact Hlt|].
      destruct rel; [|reflexivity].
      destruct (Nat.eqb_spec (pending cs') 0) as [Hp0|Hp0]; [|reflexivity].
      exfalso. apply Hz. rewrite Hst, Hp0. reflexivity.
Qed.

Lemma Release_inv m w b' env' :
  broadcast_inv false m w ->
  Z.of_nat m < 2 ^ 62 ->
  Release (bc w) (wenv w) = (b', env') ->
  broadcast_inv true m {| conns := conns w; bc := b'; wenv := env' |}.
Proof.
  intros [Ist Ibd Itk Ifr Idi Ica] Hm. unfold Release.
  assert (Hst : state (add_state (bc w) (-1 * MaxInt32))
                = 0 + Z.of_nat (pending (conns w))).
  { cbn [add_state state]. rewrite Ist.
    rewrite wrap64_small; unfold MaxInt32; lia. }
  cbn [andb] in Ica.
  destruct (Z.eqb_spec (state (add_state (bc w) (-1 * MaxInt32))) 0) as [Hz|Hz];
    intros E; apply pair_equal_spec in E; destruct E as [<- <-].
  - assert (Hp0 : pending (conns w) = 0%nat) by lia.
    constructor; cbn [conns bc wenv add_state msgs]; auto.
    + intros id Hid.
      destruct (doClose_puts (add_state (bc w) (-1 * MaxInt32)) (wenv w) id)
        as (Hn1 & ->).
      rewrite Hn1 in Hid. rewrite (Ifr id Hid).
      rewrite (@occurrences_fresh id _ (nextBuf (wenv w))); [reflexivity| |exact Hid].
      intros f Hf. apply Ica. exact Hf.
    + intros f Hf.
      destruct (doClose_puts (add_state (bc w) (-1 * MaxInt32)) (wenv w) (bid f))
        as (Hn1 & ->).
      rewrite Hn1. destruct (Ica f Hf) as (Hlt & ->). split; [exact Hlt|].
      rewrite (@occurrences_cached f (add_state (bc w) (-1 * MaxInt32)) Idi Hf).
      rewrite Hp0. reflexivity.
  - constructor; cbn [conns bc wenv add_state msgs]; auto.
    intros f Hf. destruct (Ica f Hf) as (Hlt & ->). split; [exact Hlt|].
    cbn [andb]. destruct (Nat.eqb_spec (pending (conns w)) 0) as [Hp0|Hp0];
      [|reflexivity].
    exfalso. apply Hz. rewrite Hst, Hp0. reflexivity.
Qed.

End BroadcastTasks.

Section BroadcastRun.

Context {X : Externals}.

Lemma world_step_inv rel m w a :
  broadcast_inv rel m w ->
  Z.of_nat m < 2 ^ 62 ->
  (rel = true -> is_run a = true) ->
  broadcast_inv (rel || is_release a) (S m) (world_step a w).
Proof.
  intros Inv Hm Hrel.
  assert (Hsame : broadcast_inv rel (S m) w)
    by (apply broadcast_inv_weaken with m; [exact Inv | lia]).
  destruct a as [i|i|]; cbn [world_step is_release].
  - assert (rel = false) as -> by (destruct rel; [discriminate (Hrel eq_refl)|reflexivity]).
    cbn [orb].
    destruct (nth_error (conns w) i) as [socket|] eqn:Hn; [|exact Hsame].
    destruct (Broadcast (bc w) socket (wenv w)) as [[[r b'] socket'] env'] eqn:B.
    eapply Broadcast_inv; eauto.
  - rewrite orb_false_r.
    destruct (nth_error (conns w) i) as [socket|] eqn:Hn; [|exact Hsame].
    destruct (writeQueue socket) as [|t q] eqn:Hq; [exact Hsame|].
    pose proof (@Forall_nth_error _ _ _ _ _ (inv_tasks Inv) Hn) as Hall.
    cbn beta in Hall. rewrite Hq in Hall.
    destruct t as [frame|frame]; [discriminate Hall|].
    cbn [run_task].
    destruct (run_Broadcast_task frame (bc w) (pop_task socket) (wenv w))
      as [[b' socket'] env'] eqn:R.
    apply broadcast_inv_weaken with m; [|lia].
    eapply run_Broadcast_task_inv; eauto.
  - assert (rel = false) as -> by (destruct rel; [discriminate (Hrel eq_refl)|reflexivity]).
    cbn [orb].
    destruct (Release (bc w) (wenv w)) as [b' env'] eqn:R.
    apply broadcast_inv_weaken with m; [|lia].
    eapply Release_inv; eauto.
Qed.

Lemma world_run_inv acts rel m w :
  broadcast_inv rel m w ->
  allowed rel acts = true ->
  Z.of_nat (m + List.length acts) < 2 ^ 62 ->
  broadcast_inv (rel || released acts) (m + List.length acts) (world_run acts w).
Proof.
  revert rel m w. induction acts as [|a acts IH]; intros rel m w Inv Hal Hm.
  - cbn. rewrite orb_false_r, Nat.add_0_r. exact Inv.
  - cbn [world_run fold_left released existsb List.length].
    rewrite orb_assoc. replace (m + S (List.length acts))%nat
      with (S m + List.length acts)%nat by lia.
    apply IH.
    + apply world_step_inv; [exact Inv | cbn [List.length] in Hm; lia |].
      intros ->. cbn [allowed forallb] in Hal.
      apply andb_prop in Hal. apply Hal.
    + unfold allowed in *. destruct rel; cbn [orb].
      * cbn [forallb] in Hal. apply andb_prop in Hal. apply Hal.
      * destruct a; cbn [is_release protocol_ok] in *; exact Hal.
    + cbn [List.length] in Hm. lia.
Qed.

(** C7: a Broadcaster starts from the sentinel; its caller issues
    broadcasts to any connections, lets their write queues run in any
    order, and calls [Release] once, after the last [Broadcast].  At every
    point of such a run the counter is the sentinel (until [Release]) plus
    the broadcast writes enqueued and not completed, and every cached frame
    buffer has been released exactly once if [Release] has been called and
    no enqueued write is pending, and not at all otherwise: never while a
    write is pending, never before [Release], and never twice. *)
Theorem broadcaster_releases_once (cs : list Conn) (opcode : Opcode)
    (payload : list byte) (acts : list bstep) :
  Forall (fun c => writeQueue c = []) cs ->
  protocol_ok acts = true ->
  len acts < 2 ^ 62 ->
  let w := world_run acts
             {| conns := cs; bc := NewBroadcaster opcode payload; wenv := Env0 |} in
  state (bc w)
  = (if released acts then 0 else MaxInt32) + Z.of_nat (pending (conns w))
  /\ forall f, In f (cached_frames (bc w)) ->
       count (is_Put (bid f)) (trace (wenv w))
       = if released acts && Nat.eqb (pending (conns w)) 0 then 1%nat else 0%nat.
Proof.
  intros Hq Hok Hlen w.
  assert (P0 : pending cs = 0%nat).
  { unfold pending. induction Hq as [|c r Hc Hr IH]; [reflexivity|].
    cbn [map]. change (list_sum (?a :: ?t)) with (a + list_sum t)%nat.
    rewrite IH, Hc. reflexivity. }
  assert (I0 : broadcast_inv false 0
                 {| conns := cs; bc := NewBroadcaster opcode payload; wenv := Env0 |}).
  { constructor; cbn [conns bc wenv NewBroadcaster state msgs fst snd].
    - rewrite P0. reflexivity.
    - lia.
    - eapply Forall_impl; [|exact Hq]. cbn beta. intros c ->. reflexivity.
    - intros id _. reflexivity.
    - discriminate.
    - intros f []. }
  pose proof (world_run_inv acts I0 Hok) as Inv. cbn [orb Nat.add] in Inv.
  fold w in Inv. unfold len in Hlen.
  specialize (Inv Hlen). destruct Inv as [Ist _ _ _ _ Ica].
  split; [exact Ist|]. intros f Hf. apply Ica. exact Hf.
Qed.

End BroadcastRun.

Lemma broadcaster_releases_once_witness :
  let cs := [sample_conn 0 false (sample_config false 0 100);
             sample_conn 1 true (sample_config false 0 100);
             sample_conn 2 false (sample_config false 0 100)] in
  let acts := [DoBroadcast 0; DoBroadcast 1; DoRunTask 0; DoBroadcast 2;
               DoRelease; DoRunTask 2; DoRunTask 1]%nat in
  let w := @world_run sampleX acts
             {| conns := cs; bc := NewBroadcaster OpcodeBinary [x01; x02];
                wenv := Env0 |} in
  state (bc w) = 0
  /\ map (fun f => count (is_Put (bid f)) (trace (wenv w))) (cached_frames (bc w))
     = [1%nat; 1%nat].
Proof.
  intros cs acts w.
  destruct (@broadcaster_releases_once sampleX cs OpcodeBinary [x01; x02] acts)
    as (Hst & Hput).
  - repeat constructor.
  - reflexivity.
  - reflexivity.
  - split; [exact Hst|]. reflexivity.
Defined.

(** * Further properties *)

(** ** One call at a time *)

Lemma quiet_refl env : quiet env env.
Proof. split; [reflexivity|]. intros k. split; reflexivity. Qed.

Lemma quiet_trans env1 env2 env3 :
  quiet env1 env2 -> quiet env2 env3 -> quiet env1 env3.
Proof.
  intros (N1 & C1) (N2 & C2). split; [congruence|].
  intros k. destruct (C1 k) as (W1 & O1). destruct (C2 k) as (W2 & O2).
  split; congruence.
Qed.

Lemma quiet_same_OnClose env env' : quiet env env' -> same_OnClose env env'.
Proof. intros (_ & C) k. apply C. Qed.

Lemma quiet_emit ev env :
  (forall k, is_Write k ev = false) ->
  (forall k, is_OnClose k ev = false) ->
  quiet env (emit ev env).
Proof.
  intros Hw Ho. split; [reflexivity|].
  intros k. rewrite !count_emit, Hw, Ho. split; lia.
Qed.

Lemma call_step_after c env env1 c' env' :
  same_OnClose env env1 ->
  (closed c = 1 -> quiet env env1) ->
  call_step c env1 c' env' ->
  call_step c env c' env'.
Proof.
  intros Hs Hq (Hk & [(Hc & Hs' & Hq')|(H0 & H1 & Hn)]); split; auto.
  - left. split; [exact Hc|]. split.
    + intros k. rewrite Hs'. apply Hs.
    + intros Hcl. eapply quiet_trans; eauto.
  - right. split; [exact H0|]. split; [exact H1|]. rewrite Hn, Hs. reflexivity.
Qed.

Lemma call_step_before c env c1 env1 env' :
  call_step c env c1 env1 ->
  quiet env1 env' ->
  call_step c env c1 env'.
Proof.
  intros (Hk & [(Hc & Hs' & Hq')|(H0 & H1 & Hn)]) Hq; split; auto.
  - left. split; [exact Hc|]. split.
    + intros k. rewrite (quiet_same_OnClose Hq). apply Hs'.
    + intros Hcl. eapply quiet_trans; eauto.
  - right. split; [exact H0|]. split; [exact H1|].
    rewrite (quiet_same_OnClose Hq). exact Hn.
Qed.

Lemma call_step_refl c env : call_step c env c env.
Proof.
  split; [reflexivity|]. left. split; [reflexivity|].
  split; [intros k; reflexivity | intros _; apply quiet_refl].
Qed.

Section CallSteps.

Context {X : Externals}.

Lemma genFrame_quiet c op p env r env' :
  genFrame c op p env = (r, env') -> quiet env env'.
Proof.
  intros G. pose proof (genFrame_effect _ _ _ _ G)
    as (Ho & [(Ht & _)|(sz & Ht & _)]); split; auto; intros k; rewrite Ht.
  - split; reflexivity.
  - rewrite !count_app. cbn. split; lia.
Qed.

Lemma doClose_quiet b env : quiet env (doClose b env).
Proof.
  assert (Q : forall item e, quiet e (doClose_item item e)).
  { intros [[f|err]|] e; cbn [doClose_item]; try apply quiet_refl;
      apply quiet_emit; reflexivity. }
  unfold doClose. eapply quiet_trans; apply Q.
Qed.

Lemma net_op_same_OnClose ev env :
  (forall k, is_OnClose k ev = false) ->
  same_OnClose env (snd (net_op ev env)).
Proof.
  intros H k. rewrite count_net_op, H. lia.
Qed.

Lemma emitError_step e c env :
  call_step c env (fst (emitError e c env)) (snd (emitError e c env)).
Proof.
  destruct e as [e|]; [|apply call_step_refl].
  destruct (Z.eq_dec (closed c) 0) as [H0|H0].
  - rewrite emitError_open by exact H0. cbn [fst snd].
    split; [reflexivity|]. right. split; [exact H0|]. split; [reflexivity|].
    rewrite count_emit, count_net_op. cbn [is_OnClose]. rewrite Nat.eqb_refl.
    destruct (doWrite (set_closed c 1) OpcodeCloseConnection (emitError_content e) env)
      as [r env1] eqn:D.
    cbn [snd]. rewrite (doWrite_no_OnClose _ _ _ _ (sock c) D). lia.
  - rewrite emitError_closed by exact H0. apply call_step_refl.
Qed.

Lemma emitClose_step p c env :
  call_step c env (snd (fst (emitClose p c env))) (snd (emitClose p c env)).
Proof.
  destruct (Z.eq_dec (closed c) 0) as [H0|H0].
  - unfold emitClose. destruct (emitClose_codes c p) as [[rc real] rest].
    rewrite H0. cbn [Z.eqb].
    destruct (doWrite (set_closed c 1) OpcodeCloseConnection (StatusCode_Bytes rc) env)
      as [r env1] eqn:D.
    cbn [fst snd]. split; [reflexivity|]. right.
    split; [exact H0|]. split; [reflexivity|].
    rewrite count_emit. cbn [is_OnClose sock set_closed]. rewrite Nat.eqb_refl.
    rewrite (doWrite_no_OnClose _ _ _ _ (sock c) D). lia.
  - rewrite emitClose_closed by exact H0. apply call_step_refl.
Qed.

Lemma WriteMessage_step op p c env :
  call_step c env (snd (fst (WriteMessage op p c env))) (snd (WriteMessage op p c env)).
Proof.
  unfold WriteMessage, isClosed.
  destruct (Z.eqb_spec (closed c) 1) as [H1|H1]; [apply call_step_refl|].
  destruct (doWrite c op p env) as [err env1] eqn:D.
  pose proof (emitError_step err c env1) as S.
  destruct (emitError err c env1) as [c' env']. cbn [fst snd] in *.
  eapply call_step_after; [| |exact S].
  - intros k. eapply doWrite_no_OnClose; eauto.
  - intros Hc. contradiction.
Qed.

Lemma WriteAsync_step op p c env :
  call_step c env (snd (fst (WriteAsync op p c env))) (snd (WriteAsync op p c env)).
Proof.
  unfold WriteAsync.
  destruct (genFrame c op p env) as [[frame|err] env1] eqn:G;
    pose proof (genFrame_quiet _ _ _ _ G) as Q.
  - cbn [fst snd]. apply call_step_before with (env1 := env).
    + split; [reflexivity|]. left. split; [reflexivity|].
      split; [intros k; reflexivity | intros _; apply quiet_refl].
    + exact Q.
  - pose proof (emitError_step (Some err) c env1) as S.
    destruct (emitError (Some err) c env1) as [c' env']. cbn [fst snd] in *.
    eapply call_step_after; [| |exact S].
    + apply quiet_same_OnClose. exact Q.
    + intros _. exact Q.
Qed.

Lemma set_deadline_step k c env :
  call_step c env (snd (fst (set_deadline k c env))) (snd (set_deadline k c env)).
Proof.
  unfold set_deadline, isClosed.
  destruct (Z.eqb_spec (closed c) 1) as [H1|H1]; [apply call_step_refl|].
  destruct (net_op (EvSetDeadline (sock c) k) env) as [err env1] eqn:N.
  assert (E1 : env1 = snd (net_op (EvSetDeadline (sock c) k) env))
    by (rewrite N; reflexivity).
  pose proof (emitError_step err c env1) as S.
  destruct (emitError err c env1) as [c' env']. cbn [fst snd] in *.
  eapply call_step_after; [| |exact S].
  - rewrite E1. apply net_op_same_OnClose. reflexivity.
  - intros Hc. contradiction.
Qed.

Lemma Broadcast_step b c env :
  call_step c env (snd (fst (Broadcast b c env))) (snd (Broadcast b c env)).
Proof.
  unfold Broadcast.
  set (idx := if compressEnabled c then 1%nat else 0%nat).
  assert (Q : quiet env
                (snd (match get_msg b idx with
                      | Some msg => (b, msg, env)
                      | None =>
                          let '(msg, env0) :=
                            genFrame c (b_opcode b) (b_payload b) env in
                          (set_msg b idx msg, msg, env0)
                      end))).
  { destruct (get_msg b idx); [apply quiet_refl|].
    destruct (genFrame c (b_opcode b) (b_payload b) env) as [msg env0] eqn:G.
    cbn [snd]. eapply genFrame_quiet; eauto. }
  destruct (match get_msg b idx with
            | Some msg => (b, msg, env)
            | None => _
            end) as [[b1 msg] env1].
  cbn [snd] in Q.
  destruct msg as [frame|err]; cbn [fst snd].
  - apply call_step_before with env; [|exact Q].
    split; [reflexivity|]. left. split; [reflexivity|].
    split; [intros k; reflexivity | intros _; apply quiet_refl].
  - apply call_step_before with env; [apply call_step_refl | exact Q].
Qed.

Lemma run_WriteAsync_task_step frame c env :
  call_step c env (fst (run_WriteAsync_task frame c env))
    (snd (run_WriteAsync_task frame c env)).
Proof.
  unfold run_WriteAsync_task, isClosed.
  destruct (Z.eqb_spec (closed c) 1) as [H1|H1]; [apply call_step_refl|].
  unfold WriteN.
  destruct (net_op (EvWrite (sock c) (bbytes frame)) env) as [err env1] eqn:N.
  assert (E1 : env1 = snd (net_op (EvWrite (sock c) (bbytes frame)) env))
    by (rewrite N; reflexivity).
  eapply call_step_after; [| |apply emitError_step].
  - intros k. unfold pool_Put. rewrite count_emit, E1, count_net_op. cbn. lia.
  - intros Hc. contradiction.
Qed.

Lemma run_Broadcast_task_step frame b c env :
  call_step c env (snd (fst (run_Broadcast_task frame b c env)))
    (snd (run_Broadcast_task frame b c env)).
Proof.
  unfold run_Broadcast_task, isClosed.
  assert (S : call_step c env
                (fst (if negb (closed c =? 1) then
                        let '(err, env0) := WriteN (sock c) (bbytes frame) env in
                        emitError err c env0
                      else (c, env)))
                (snd (if negb (closed c =? 1) then
                        let '(err, env0) := WriteN (sock c) (bbytes frame) env in
                        emitError err c env0
                      else (c, env)))).
  { destruct (Z.eqb_spec (closed c) 1) as [H1|H1]; cbn [negb];
      [apply call_step_refl|].
    unfold WriteN.
    destruct (net_op (EvWrite (sock c) (bbytes frame)) env) as [err env1] eqn:N.
    assert (E1 : env1 = snd (net_op (EvWrite (sock c) (bbytes frame)) env))
      by (rewrite N; reflexivity).
    eapply call_step_after; [| |apply emitError_step].
    - rewrite E1. apply net_op_same_OnClose. reflexivity.
    - intros Hc. contradiction. }
  destruct (if negb (closed c =? 1) then _ else _) as [c1 env1].
  cbn [fst snd] in S.
  destruct (state (add_state b (-1)) =? 0); cbn [fst snd].
  - eapply call_step_before; [exact S | apply doClose_quiet].
  - exact S.
Qed.

Lemma pop_task_step c env c' env' :
  call_step (pop_task c) env c' env' -> call_step c env c' env'.
Proof. intros H. exact H. Qed.

(** Every call either leaves the closed flag and [OnClose] alone, without
    using the socket if the connection is closed, or closes the open
    connection and calls [OnClose] once. *)
Lemma apply_call_step a b c env :
  call_step c env (snd (fst (apply_call a (b, c, env))))
    (snd (apply_call a (b, c, env))).
Proof.
  destruct a; cbn [apply_call].
  - pose proof (WriteMessage_step opcode payload c env) as S.
    destruct (WriteMessage opcode payload c env) as [[r c'] env']. exact S.
  - pose proof (WriteAsync_step opcode payload c env) as S.
    destruct (WriteAsync opcode payload c env) as [[r c'] env']. exact S.
  - unfold WriteClose.
    pose proof (emitError_step
                  (Some (EInternal (wrap16 code)
                           (if (0 <? List.length reason)%nat
                            then Some (EOther reason) else Some (EOther []))))
                  c env) as S.
    destruct (emitError _ c env) as [c' env']. exact S.
  - pose proof (set_deadline_step k c env) as S.
    destruct (set_deadline k c env) as [[r c'] env']. exact S.
  - pose proof (emitError_step (Some e) c env) as S.
    destruct (emitError (Some e) c env) as [c' env']. exact S.
  - pose proof (emitClose_step payload c env) as S.
    destruct (emitClose payload c env) as [[r c'] env']. exact S.
  - pose proof (Broadcast_step b c env) as S.
    destruct (Broadcast b c env) as [[[r b'] c'] env']. exact S.
  - destruct (Release b env) as [b' env'] eqn:R. cbn [fst snd].
    apply call_step_before with env; [apply call_step_refl|].
    unfold Release in R.
    destruct (state (add_state b (-1 * MaxInt32)) =? 0);
      injection R as _ <-; [apply doClose_quiet | apply quiet_refl].
  - destruct (writeQueue c) as [|t q]; [apply call_step_refl|].
    apply pop_task_step. destruct t as [frame|frame]; cbn [run_task].
    + pose proof (run_WriteAsync_task_step frame (pop_task c) env) as S.
      destruct (run_WriteAsync_task frame (pop_task c) env) as [c' env']. exact S.
    + apply run_Broadcast_task_step.
Qed.

End CallSteps.

(** ** Sequences of calls *)

Section CallSequences.

Context {X : Externals}.

Lemma run_calls_closed calls b c env :
  closed c = 1 ->
  closed (snd (fst (run_calls calls (b, c, env)))) = 1
  /\ sock (snd (fst (run_calls calls (b, c, env)))) = sock c
  /\ quiet env (snd (run_calls calls (b, c, env))).
Proof.
  revert b c env. induction calls as [|a calls IH]; intros b c env H1.
  - cbn. repeat split; auto.
  - cbn [run_calls fold_left].
    pose proof (apply_call_step a b c env) as (Hk & [(Hc & _ & Hq)|(H0 & _)]);
      [|lia].
    destruct (apply_call a (b, c, env)) as [[b1 c1] env1]. cbn [fst snd] in *.
    destruct (IH b1 c1 env1) as (Hc' & Hk' & Hq'); [lia|].
    split; [exact Hc'|]. split; [exact (eq_trans Hk' Hk)|].
    eapply quiet_trans; [apply Hq; exact H1 | exact Hq'].
Qed.

(** X1: once a connection is closed it stays closed, and nothing that is
    called on it afterwards - writes, asynchronous writes, closes,
    deadlines, read errors, peer close frames, broadcasts, queued tasks -
    uses the socket or calls [OnClose]. *)
Theorem closed_connection_is_inert (calls : list call) (b : Broadcaster)
    (c : Conn) (env : Env) :
  closed c = 1 ->
  let s' := run_calls calls (b, c, env) in
  closed (snd (fst s')) = 1
  /\ netOps (snd s') = netOps env
  /\ forall k, count (is_Write k) (trace (snd s')) = count (is_Write k) (trace env)
               /\ count (is_OnClose k) (trace (snd s'))
                  = count (is_OnClose k) (trace env).
Proof.
  intros H1 s'. destruct (@run_calls_closed calls b c env H1) as (Hc & _ & Hn & Hq).
  auto.
Qed.

(** X2: over any sequence of calls on an open connection, [OnClose] has been
    called exactly once if the connection is now closed and not at all if
    it is still open. *)
Theorem OnClose_once_iff_closed (calls : list call) (b : Broadcaster)
    (c : Conn) (env : Env) :
  closed c = 0 ->
  let s' := run_calls calls (b, c, env) in
  let n e := count (is_OnClose (sock c)) (trace e) in
  (closed (snd (fst s')) = 0 /\ n (snd s') = n env)
  \/ (closed (snd (fst s')) = 1 /\ n (snd s') = S (n env)).
Proof.
  intros H0 s' n. subst s' n. cbn beta.
  revert b c env H0. induction calls as [|a calls IH]; intros b c env H0.
  - left. cbn. auto.
  - cbn [run_calls fold_left].
    pose proof (apply_call_step a b c env) as (Hk & [(Hc & Hs & _)|(_ & H1 & Hn)]);
      destruct (apply_call a (b, c, env)) as [[b1 c1] env1]; cbn [fst snd] in *.
    + specialize (IH b1 c1 env1). rewrite Hk, (Hs (sock c)) in IH.
      apply IH. lia.
    + right. destruct (@run_calls_closed calls b1 c1 env1 H1) as (Hc' & _ & _ & Hq).
      split; [exact Hc'|]. rewrite <- Hn, <- Hk. apply Hq.
Qed.

End CallSequences.

Lemma closed_connection_is_inert_witness :
  let c := set_closed (sample_conn 3 true (sample_config true 0 100)) 1 in
  let calls := [CallWriteAsync OpcodeBinary [x01]; CallBroadcast;
                CallWriteMessage OpcodeText [x41]; CallRunTask;
                CallWriteClose 1000 []; CallRunTask; CallRelease;
                CallSetDeadline DeadlineRead; CallPeerClose []] in
  let s' := @run_calls sampleX calls (NewBroadcaster OpcodeText [x42], c, Env0) in
  closed (snd (fst s')) = 1 /\ netOps (snd s') = 0%nat.
Proof.
  intros c calls s'.
  destruct (@closed_connection_is_inert sampleX calls
              (NewBroadcaster OpcodeText [x42]) c Env0 eq_refl) as (Hc & Hn & _).
  split; [exact Hc | exact Hn].
Defined.

Lemma OnClose_once_iff_closed_witness :
  let c := sample_conn 3 false (sample_config true 0 100) in
  let calls := [CallWriteAsync OpcodeBinary [x01]; CallRunTask;
                CallWriteMessage OpcodeText [xff];
                CallWriteClose 1000 []; CallReadError (EStatusCode 1000)] in
  let s' := @run_calls sampleX calls (NewBroadcaster OpcodeText [x42], c, Env0) in
  closed (snd (fst s')) = 1
  /\ count (is_OnClose 3) (trace (snd s')) = 1%nat.
Proof.
  intros c calls s'.
  destruct (@OnClose_once_iff_closed sampleX calls
              (NewBroadcaster OpcodeText [x42]) c Env0 eq_refl) as [(H0 & _)|(H1 & Hn)].
  - discriminate H0.
  - split; [exact H1 | exact Hn].
Defined.

(** ** Results of the entry points *)

Section EntryResults.

Context {X : Externals}.

Lemma emitError_some_closes e c env :
  closed c = 0 -> closed (fst (emitError (Some e) c env)) = 1.
Proof.
  intros H0. rewrite emitError_open by exact H0. reflexivity.
Qed.

(** X3: on an open connection [WriteMessage], [WriteAsync] and the deadline
    setters return nil exactly when they leave the connection open: every
    error they return has closed it. *)
Theorem nil_result_iff_still_open (op : Opcode) (p : list byte) (k : deadline)
    (c : Conn) (env : Env) :
  closed c = 0 ->
  (fst (fst (WriteMessage op p c env)) = None
   <-> closed (snd (fst (WriteMessage op p c env))) = 0)
  /\ (fst (fst (WriteAsync op p c env)) = None
      <-> closed (snd (fst (WriteAsync op p c env))) = 0)
  /\ (fst (fst (set_deadline k c env)) = None
      <-> closed (snd (fst (set_deadline k c env))) = 0).
Proof.
  intros H0.
  assert (Hopen : isClosed c = false) by (unfold isClosed; rewrite H0; reflexivity).
  split; [|split].
  - unfold WriteMessage. rewrite Hopen.
    destruct (doWrite c op p env) as [[e|] env1].
    + pose proof (emitError_some_closes e c env1 H0) as H1.
      destruct (emitError (Some e) c env1) as [c' env']. cbn [fst snd] in *.
      split; [discriminate | lia].
    + cbn. split; auto.
  - unfold WriteAsync.
    destruct (genFrame c op p env) as [[frame|e] env1].
    + cbn. split; auto.
    + pose proof (emitError_some_closes e c env1 H0) as H1.
      destruct (emitError (Some e) c env1) as [c' env']. cbn [fst snd] in *.
      split; [discriminate | lia].
  - unfold set_deadline. rewrite Hopen.
    destruct (net_op (EvSetDeadline (sock c) k) env) as [[e|] env1].
    + pose proof (emitError_some_closes e c env1 H0) as H1.
      destruct (emitError (Some e) c env1) as [c' env']. cbn [fst snd] in *.
      split; [discriminate | lia].
    + cbn. split; auto.
Qed.

(** X4: [genFrame] never hands out a frame whose payload is longer than
    [WriteMaxPayloadSize]: when it succeeds, the final payload (compressed
    or not) exists and is within the limit. *)
Theorem genFrame_within_limit (c : Conn) (op : Opcode) (p : list byte)
    (env : Env) (frame : Buffer) (env' : Env) :
  genFrame c op p env = (Ok frame, env') ->
  exists n, final_payload_len c op p = Some n
            /\ n <= WriteMaxPayloadSize (config c).
Proof.
  unfold genFrame. rewrite genFrame_path_cases. unfold final_payload_len.
  destruct (Opcode_eqb op OpcodeText && negb (isTextValid c op p)); [intros [=]|].
  destruct (compress_condition c op p).
  - unfold compressData, pool_Get. cbn [bbytes buf_set].
    destruct (Compress p) as [out|err]; [|intros [=]].
    rewrite padded_payload_size, Z.gtb_ltb.
    destruct (Z.ltb_spec (WriteMaxPayloadSize (config c)) (len out));
      [intros [=]|].
    intros _. exists (len out). split; [reflexivity | lia].
  - unfold genFrame_plain. rewrite Z.gtb_ltb.
    destruct (Z.ltb_spec (WriteMaxPayloadSize (config c)) (len p));
      [intros [=]|].
    intros _. exists (len p). split; [reflexivity | lia].
Qed.

(** X5: ping, pong and close frames are never compressed and never checked for
    UTF-8, and the only limit on their payload is [WriteMaxPayloadSize]:
    within it [genFrame] succeeds, beyond it [genFrame] fails with the
    message-too-large code before acquiring a buffer. *)
Theorem control_frames_only_size_checked (c : Conn) (op : Opcode)
    (p : list byte) (env : Env) :
  is_control op = true ->
  genFrame_path c op p = PathPlain
  /\ (len p <= WriteMaxPayloadSize (config c) ->
      exists frame, fst (genFrame c op p env) = Ok frame)
  /\ (WriteMaxPayloadSize (config c) < len p ->
      genFrame c op p env = (Err (EStatusCode CloseMessageTooLarge), env)).
Proof.
  intros Hop.
  assert (Hpath : genFrame_path c op p = PathPlain).
  { unfold genFrame_path. destruct op; try discriminate Hop; cbn;
      rewrite andb_false_r; reflexivity. }
  split; [exact Hpath|]. unfold genFrame. rewrite Hpath.
  unfold genFrame_plain. rewrite Z.gtb_ltb.
  destruct (Z.ltb_spec (WriteMaxPayloadSize (config c)) (len p)); split;
    try lia; intros _.
  - reflexivity.
  - destruct (GenerateHeader _ _ _ _ _ _) as [[h k] e1].
    unfold pool_Get. cbn [bbytes buf_set fst]. eexists. reflexivity.
Qed.

Lemma ascii_only_valid (p : list byte) :
  ascii_only p = true -> utf8_Valid p = true.
Proof.
  unfold ascii_only. induction p as [|b r IH]; [reflexivity|].
  cbn [forallb utf8_Valid]. intros H. apply andb_prop in H. destruct H as (Hb & Hr).
  rewrite Hb. apply IH. exact Hr.
Qed.

(** X6: a payload of ASCII bytes passes the UTF-8 check whatever the opcode and
    the configuration, so [genFrame] never rejects it as text. *)
Theorem ascii_text_is_never_rejected (c : Conn) (op : Opcode) (p : list byte) :
  ascii_only p = true ->
  isTextValid c op p = true /\ genFrame_path c op p <> PathRejectText.
Proof.
  intros H. apply ascii_only_valid in H.
  assert (V : isTextValid c op p = true).
  { unfold isTextValid. destruct (negb (CheckUtf8Enabled (config c))); [reflexivity|].
    destruct op; auto. }
  split; [exact V|]. rewrite genFrame_path_cases, V, andb_false_r.
  destruct (compress_condition c op p); discriminate.
Qed.

End EntryResults.

Lemma nil_result_iff_still_open_witness :
  let c := sample_conn 0 false (sample_config true 0 100) in
  closed (snd (fst (@WriteMessage brokenX OpcodeBinary [x01] c Env0))) <> 0
  /\ closed (snd (fst (@WriteAsync sampleX OpcodeBinary [x01] c Env0))) = 0.
Proof.
  intros c.
  destruct (@nil_result_iff_still_open brokenX OpcodeBinary [x01] DeadlineBoth c Env0 eq_refl)
    as (Hm & _).
  destruct (@nil_result_iff_still_open sampleX OpcodeBinary [x01] DeadlineBoth c Env0 eq_refl)
    as (_ & Ha & _).
  split.
  - intros H. apply Hm in H. discriminate H.
  - apply Ha. reflexivity.
Defined.

Lemma genFrame_within_limit_witness :
  exists n,
    @final_payload_len sampleX (sample_conn 0 true (sample_config false 2 10))
      OpcodeBinary [x01; x02; x03] = Some n
    /\ n <= 10.
Proof.
  eapply (@genFrame_within_limit sampleX
            (sample_conn 0 true (sample_config false 2 10))
            OpcodeBinary [x01; x02; x03] Env0).
  reflexivity.
Defined.

Lemma control_frames_only_size_checked_witness :
  let c := sample_conn 0 true (sample_config true 0 2) in
  genFrame_path c OpcodePing [xff; xff; xff] = PathPlain
  /\ @genFrame sampleX c OpcodePing [xff; xff; xff] Env0
     = (Err (EStatusCode CloseMessageTooLarge), Env0).
Proof.
  intros c.
  destruct (@control_frames_only_size_checked sampleX c OpcodePing
              [xff; xff; xff] Env0 eq_refl) as (Hp & _ & Hbig).
  split; [exact Hp|]. apply Hbig. cbn. lia.
Defined.

Lemma ascii_text_is_never_rejected_witness :
  let c := sample_conn 0 true (sample_config true 0 100) in
  isTextValid c OpcodeText (list_byte_of_string "hello"%string) = true.
Proof.
  intros c.
  apply (@ascii_text_is_never_rejected c OpcodeText
           (list_byte_of_string "hello"%string)).
  reflexivity.
Defined.

(** ** The bytes of a frame *)

Section FrameLayout.

Context {X : Externals}.

Lemma GenerateHeader_maskOps isS fin cmp op n env1 env2 :
  maskOps env1 = maskOps env2 ->
  fst (GenerateHeader isS fin cmp op n env1) = fst (GenerateHeader isS fin cmp op n env2).
Proof.
  intros H. unfold GenerateHeader. destruct (header_length_field n) as [l7 ext].
  destruct isS; [reflexivity|]. rewrite H.
  destruct (newMaskKey (maskOps env2)) as [[[k0 k1] k2] k3]. reflexivity.
Qed.

(** X7: the frame [genFrame] returns is the generated header followed by the
    payload as it goes on the wire and nothing else: the payload itself on
    the plain path, the compressor's output on the compression path, with
    none of the reserved padding left in front; for a client the payload
    part, and only it, is masked with the key of that header. *)
Theorem genFrame_frame_layout (c : Conn) (op : Opcode) (p : list byte)
    (env : Env) (frame : Buffer) (env' : Env) :
  genFrame c op p env = (Ok frame, env') ->
  exists data header maskBytes,
    (if compress_condition c op p then Compress p = Ok data else data = p)
    /\ fst (GenerateHeader (isServer c) true (compress_condition c op p) op
              (len data) env) = (header, maskBytes)
    /\ bbytes frame = header ++ wire_payload c data maskBytes.
Proof.
  unfold genFrame. rewrite genFrame_path_cases.
  destruct (Opcode_eqb op OpcodeText && negb (isTextValid c op p)); [intros [=]|].
  destruct (compress_condition c op p).
  - unfold compressData, pool_Get.
    assert (Hpad : List.length myPadding = frameHeaderSize)
      by (unfold myPadding; apply repeat_length).
    remember frameHeaderSize as fhs eqn:Hfhs.
    remember myPadding as pad eqn:Hp.
    cbn [bbytes buf_set].
    destruct (Compress p) as [out|err]; [|intros [=]].
    replace (len (([] ++ pad) ++ out) - Z.of_nat fhs) with (len out)
      by (unfold len; cbn [app]; rewrite length_app; lia).
    destruct (_ >? _); [intros [=]|].
    match goal with
    | |- context [GenerateHeader ?a ?b ?d ?e ?f ?g] =>
        pose proof (GenerateHeader_maskOps a b d e f g env eq_refl) as E;
        destruct (GenerateHeader a b d e f g) as [[h k] e2] eqn:G
    end.
    cbn [fst] in E.
    pose proof (GenerateHeader_shape _ _ _ _ _ _ G) as (Hlen & _).
    rewrite <- Hfhs in Hlen.
    intros H. apply pair_equal_spec in H. destruct H as [H _].
    injection H as <-. cbn [bbytes buf_set app].
    exists out, h, k. split; [reflexivity|]. split; [symmetry; exact E|].
    subst fhs. unfold wire_payload.
    assert (Hskip : skipn frameHeaderSize (pad ++ out) = out).
    { rewrite skipn_app, <- Hpad, skipn_all, Nat.sub_diag. reflexivity. }
    assert (Hfirst : firstn frameHeaderSize (pad ++ out) = pad).
    { rewrite firstn_app, <- Hpad, firstn_all, Nat.sub_diag. cbn [firstn].
      apply app_nil_r. }
    destruct (isServer c); cbn [negb].
    + rewrite backfill_header; [rewrite Hskip; reflexivity | exact Hlen |].
      rewrite length_app. lia.
    + rewrite Hfirst, Hskip.
      rewrite backfill_header; [| exact Hlen | rewrite length_app; lia].
      rewrite skipn_app, <- Hpad, skipn_all, Nat.sub_diag. reflexivity.
  - unfold genFrame_plain. destruct (_ >? _); [intros [=]|].
    destruct (GenerateHeader (isServer c) true false op (len p) env)
      as [[h k] e1] eqn:G.
    unfold pool_Get. cbn [bbytes buf_set]. intros H.
    apply (f_equal fst) in H. cbn [fst] in H. injection H as <-. cbn [bbytes].
    exists p, h, k. split; [reflexivity|]. split; [rewrite G; reflexivity|].
    unfold wire_payload. destruct (isServer c); cbn [negb app]; [reflexivity|].
    rewrite firstn_app, Nat.sub_diag, firstn_all. cbn [firstn].
    rewrite app_nil_r, skipn_app, skipn_all, Nat.sub_diag. reflexivity.
Qed.

End FrameLayout.

Lemma genFrame_frame_layout_witness :
  exists data header maskBytes : list byte,
    @Compress sampleX [x01; x02; x03] = Ok data
    /\ header = [xc2; x03] /\ maskBytes = []
    /\ bbytes (match fst (@genFrame sampleX
                            (sample_conn 0 true (sample_config false 2 10))
                            OpcodeBinary [x01; x02; x03] Env0) with
               | Ok frame => frame
               | Err _ => {| bbytes := []; bindex := 0; bid := 0 |}
               end) = header ++ data.
Proof.
  destruct (@genFrame sampleX (sample_conn 0 true (sample_config false 2 10))
              OpcodeBinary [x01; x02; x03] Env0) as [[frame|e] env'] eqn:G;
    [|discriminate G].
  destruct (@genFrame_frame_layout sampleX _ _ _ _ _ _ G)
    as (data & header & maskBytes & Hd & Hh & Hb).
  exists data, header, maskBytes. cbn in Hd. split; [exact Hd|].
  injection Hd as <-. cbn in Hh. injection Hh as <- <-.
  split; [reflexivity|]. split; [reflexivity|]. exact Hb.
Defined.

(** ** Buffers acquired and released *)

Section Balance.

Context {X : Externals}.

Lemma genFrame_plain_error_env c op p env e env' :
  compress_condition c op p = false ->
  genFrame c op p env = (Err e, env') -> env' = env.
Proof.
  intros Hcc. unfold genFrame. rewrite genFrame_path_cases, Hcc.
  destruct (Opcode_eqb op OpcodeText && negb (isTextValid c op p)).
  - intros [= _ <-]. reflexivity.
  - unfold genFrame_plain. destruct (_ >? _).
    + intros [= _ <-]. reflexivity.
    + destruct (GenerateHeader _ _ _ _ _ _) as [[h k] e1].
      unfold pool_Get. cbn [bbytes buf_set]. intros [=].
Qed.

Lemma doWrite_gets_puts c op p env r env' id :
  compress_condition c op p = false ->
  doWrite c op p env = (r, env') ->
  (count (is_Get id) (trace env') + count (is_Put id) (trace env)
   = count (is_Get id) (trace env) + count (is_Put id) (trace env'))%nat.
Proof.
  intros Hcc. unfold doWrite.
  destruct (genFrame c op p env) as [[frame|e] env1] eqn:G.
  - pose proof (genFrame_effect _ _ _ _ G)
      as (_ & [(_ & _ & e & [=])|(sz & Ht & _ & Hid)]).
    unfold WriteN, net_op, pool_Put, emit. cbn [fst snd trace].
    intros [= _ <-]. cbn [trace].
    rewrite Ht, (Hid _ eq_refl), !count_app. unfold count. cbn.
    destruct (Nat.eqb (nextBuf env) id); cbn; lia.
  - intros [= _ <-]. rewrite (genFrame_plain_error_env _ _ _ _ Hcc G). lia.
Qed.

Lemma emitError_gets_puts e c env id :
  (count (is_Get id) (trace (snd (emitError e c env))) + count (is_Put id) (trace env)
   = count (is_Get id) (trace env)
     + count (is_Put id) (trace (snd (emitError e c env))))%nat.
Proof.
  destruct e as [e|]; [|cbn; lia].
  destruct (Z.eq_dec (closed c) 0) as [H0|H0].
  - rewrite emitError_open by exact H0. cbn [snd].
    rewrite !count_emit, !count_net_op. cbn [is_Get is_Put].
    destruct (doWrite (set_closed c 1) OpcodeCloseConnection (emitError_content e) env)
      as [r env1] eqn:D.
    cbn [snd].
    assert (Hcc : compress_condition (set_closed c 1) OpcodeCloseConnection
                    (emitError_content e) = false).
    { unfold compress_condition. cbn [isDataFrame]. rewrite andb_false_r. reflexivity. }
    pose proof (doWrite_gets_puts _ _ _ _ id Hcc D). lia.
  - rewrite emitError_closed by exact H0. cbn. lia.
Qed.

(** X8: a [WriteMessage] that does not take the compression path, and every
    close trigger, releases exactly the buffers it acquires: for each
    buffer identity the call adds as many [Put]s as [Get]s, whether the
    socket fails or not and whether the connection gets closed or not. *)
Theorem writes_release_what_they_acquire (op : Opcode) (p : list byte)
    (t : trigger) (c : Conn) (env : Env) (id : nat) :
  let gets e := count (is_Get id) (trace e) in
  let puts e := count (is_Put id) (trace e) in
  (compress_condition c op p = false ->
   let env' := snd (WriteMessage op p c env) in
   (gets env' + puts env = gets env + puts env')%nat)
  /\ (let env' := snd (apply_trigger t c env) in
      (gets env' + puts env = gets env + puts env')%nat).
Proof.
  intros gets puts. subst gets puts. cbn beta. split.
  - intros Hcc. unfold WriteMessage.
    destruct (isClosed c); [cbn; lia|].
    destruct (doWrite c op p env) as [err env1] eqn:D.
    pose proof (doWrite_gets_puts _ _ _ _ id Hcc D) as H1.
    pose proof (emitError_gets_puts err c env1 id) as H2.
    destruct (emitError err c env1) as [c' env']. cbn [snd] in *. lia.
  - destruct t as [e|e|payload|code reason]; cbn [apply_trigger].
    + apply emitError_gets_puts.
    + apply emitError_gets_puts.
    + unfold emitClose. destruct (emitClose_codes c payload) as [[rc real] rest].
      destruct (closed c =? 0); [|cbn; lia].
      destruct (doWrite (set_closed c 1) OpcodeCloseConnection (StatusCode_Bytes rc) env)
        as [r env1] eqn:D.
      cbn [snd]. rewrite !count_emit. cbn [is_Get is_Put].
      assert (Hcc : compress_condition (set_closed c 1) OpcodeCloseConnection
                      (StatusCode_Bytes rc) = false).
      { unfold compress_condition. cbn [isDataFrame]. rewrite andb_false_r. reflexivity. }
      pose proof (doWrite_gets_puts _ _ _ _ id Hcc D). lia.
    + unfold WriteClose. apply emitError_gets_puts.
Qed.

End Balance.

Lemma writes_release_what_they_acquire_witness :
  let c := sample_conn 0 false (sample_config false 0 100) in
  let env' := snd (@WriteMessage brokenX OpcodeBinary [x01] c Env0) in
  count (is_Get 0) (trace env') = count (is_Put 0) (trace env')
  /\ count (is_Get 1) (trace env') = count (is_Put 1) (trace env').
Proof.
  intros c env'.
  destruct (@writes_release_what_they_acquire brokenX OpcodeBinary [x01]
              (TrigReadError (EStatusCode 1000)) c Env0 0%nat) as (H0 & _).
  destruct (@writes_release_what_they_acquire brokenX OpcodeBinary [x01]
              (TrigReadError (EStatusCode 1000)) c Env0 1%nat) as (H1 & _).
  specialize (H0 eq_refl). specialize (H1 eq_refl).
  cbn beta zeta in H0, H1. fold env' in H0, H1.
  change (count (is_Put 0) (trace Env0)) with 0%nat in H0.
  change (count (is_Get 0) (trace Env0)) with 0%nat in H0.
  change (count (is_Put 1) (trace Env0)) with 0%nat in H1.
  change (count (is_Get 1) (trace Env0)) with 0%nat in H1.
  rewrite Nat.add_0_r in H0, H1. split; [exact H0 | exact H1].
Defined.

(** ** Asynchronous and synchronous writes *)

Section AsyncSync.

Context {X : Externals}.

Lemma pop_push_empty c t :
  writeQueue c = [] -> pop_task (push_task c t) = c.
Proof.
  destruct c as [sk srv cmp cfg cl q]. cbn. intros ->. reflexivity.
Qed.

Lemma emitError_queue e c env :
  writeQueue (fst (emitError e c env)) = writeQueue c.
Proof.
  destruct (emitError e c env) as [c' env'] eqn:E.
  apply emitError_puts in E. apply E.
Qed.

(** X9: on an open connection with an empty write queue, [WriteAsync] followed
    by the run of the task it queued leaves the connection and the
    environment exactly as [WriteMessage] does: the same frame is built,
    written and released, and a failure closes the connection the same
    way; when the frame cannot be built nothing is queued. *)
Theorem WriteAsync_then_task_is_WriteMessage (op : Opcode) (p : list byte)
    (b : Broadcaster) (c : Conn) (env : Env) :
  isClosed c = false ->
  writeQueue c = [] ->
  let queued := WriteAsync op p c env in
  let done := apply_call CallRunTask (b, snd (fst queued), snd queued) in
  done = (b, snd (fst (WriteMessage op p c env)), snd (WriteMessage op p c env)).
Proof.
  intros Hopen Hq queued done. subst queued done.
  unfold WriteAsync, WriteMessage, doWrite. rewrite Hopen.
  destruct (genFrame c op p env) as [[frame|e] env1].
  - cbn [fst snd apply_call push_task writeQueue]. rewrite Hq. cbn [app run_task].
    rewrite (pop_push_empty c (TaskWriteAsync frame) Hq).
    unfold run_WriteAsync_task. rewrite Hopen.
    destruct (WriteN (sock c) (bbytes frame) env1) as [err env2].
    destruct (emitError err c (pool_Put frame env2)) as [c' env']. reflexivity.
  - pose proof (emitError_queue (Some e) c env1) as Hq'.
    destruct (emitError (Some e) c env1) as [c' env'].
    cbn [fst snd apply_call] in *. rewrite Hq', Hq. reflexivity.
Qed.

End AsyncSync.

Lemma WriteAsync_then_task_is_WriteMessage_witness :
  let c := sample_conn 4 true (sample_config true 2 100) in
  let b := NewBroadcaster OpcodeBinary [] in
  let queued := @WriteAsync brokenX OpcodeText [x41; x42; x43] c Env0 in
  snd (@apply_call brokenX CallRunTask (b, snd (fst queued), snd queued))
  = snd (@WriteMessage brokenX OpcodeText [x41; x42; x43] c Env0).
Proof.
  intros c b queued.
  exact (f_equal snd (@WriteAsync_then_task_is_WriteMessage brokenX OpcodeText
                        [x41; x42; x43] b c Env0 eq_refl eq_refl)).
Defined.

(** ** The Broadcaster's cache *)

Section BroadcastCache.

Context {X : Externals}.

Lemma get_set_msg b idx m : get_msg (set_msg b idx m) idx = Some m.
Proof. destruct idx; reflexivity. Qed.

(** X10: after a first [Broadcast], a [Broadcast] to any connection of the same
    kind (compressed or not) builds nothing: it does not call [genFrame],
    returns what the first returned, and on success queues on the new
    connection a task carrying the frame the Broadcaster caches, adding one
    to the counter; after a failed build neither the connection nor the
    Broadcaster changes. *)
Theorem Broadcast_builds_each_variant_once (b : Broadcaster) (s1 s2 : Conn)
    (env env2 : Env) :
  compressEnabled s2 = compressEnabled s1 ->
  let first := Broadcast b s1 env in
  let b1 := snd (fst (fst first)) in
  let second := Broadcast b1 s2 env2 in
  snd second = env2
  /\ fst (fst (fst second)) = fst (fst (fst first))
  /\ msgs (snd (fst (fst second))) = msgs b1
  /\ match fst (fst (fst first)) with
     | None =>
         exists frame,
           In frame (cached_frames b1)
           /\ writeQueue (snd (fst second)) = writeQueue s2 ++ [TaskBroadcast frame]
           /\ state (snd (fst (fst second))) = wrap64 (state b1 + 1)
     | Some _ => snd (fst second) = s2 /\ snd (fst (fst second)) = b1
     end.
Proof.
  intros Hkind first b1 second. subst second b1 first.
  assert (Hfirst : exists b1 msg,
             snd (fst (fst (Broadcast b s1 env))) = b1
             /\ get_msg b1 (if compressEnabled s1 then 1%nat else 0%nat) = Some msg
             /\ fst (fst (fst (Broadcast b s1 env)))
                = match msg with Ok _ => None | Err e => Some e end).
  { unfold Broadcast.
    set (idx := if compressEnabled s1 then 1%nat else 0%nat).
    destruct (get_msg b idx) as [msg|] eqn:Hm.
    - destruct msg as [frame|e]; cbn [fst snd].
      + exists (add_state b 1), (Ok frame). repeat split. exact Hm.
      + exists b, (Err e). repeat split. exact Hm.
    - destruct (genFrame s1 (b_opcode b) (b_payload b) env) as [msg env1].
      destruct msg as [frame|e]; cbn [fst snd].
      + exists (add_state (set_msg b idx (Ok frame)) 1), (Ok frame).
        repeat split. apply (get_set_msg b idx (Ok frame)).
      + exists (set_msg b idx (Err e)), (Err e).
        repeat split. apply get_set_msg. }
  destruct Hfirst as (b1 & msg & -> & Hm & ->).
  unfold Broadcast. rewrite Hkind, Hm.
  destruct msg as [frame|e]; cbn [fst snd].
  - repeat split. exists frame. repeat split.
    unfold cached_frames. unfold get_msg in Hm.
    destruct (compressEnabled s1); rewrite Hm; apply in_or_app;
      [right|left]; left; reflexivity.
  - repeat split.
Qed.

End BroadcastCache.

Lemma Broadcast_builds_each_variant_once_witness :
  let s1 := sample_conn 0 true (sample_config false 0 100) in
  let s2 := sample_conn 1 true (sample_config false 0 1) in
  let first := @Broadcast sampleX (NewBroadcaster OpcodeBinary [x01; x02]) s1 Env0 in
  let second := @Broadcast sampleX (snd (fst (fst first))) s2 (snd first) in
  snd second = snd first /\ fst (fst (fst second)) = None.
Proof.
  intros s1 s2 first second.
  destruct (@Broadcast_builds_each_variant_once sampleX
              (NewBroadcaster OpcodeBinary [x01; x02]) s1 s2 Env0 (snd first) eq_refl)
    as (He & Hr & _).
  split; [exact He | exact Hr].
Defined.

(** ** What the callback is told *)

Section Callback.

Context {X : Externals}.

Lemma emitClose_open p c env :
  closed c = 0 ->
  emitClose p c env
  = (EStatusCode CloseNormalClosure, set_closed c 1,
     emit (EvOnClose (sock c)
             (Some (ECloseError (snd (fst (emitClose_codes c p)))
                                (snd (emitClose_codes c p)))))
       (snd (doWrite (set_closed c 1) OpcodeCloseConnection
               (StatusCode_Bytes (fst (fst (emitClose_codes c p)))) env))).
Proof.
  intros H0. unfold emitClose.
  destruct (emitClose_codes c p) as [[rc real] rest]. rewrite H0. cbn [Z.eqb fst snd].
  destruct (doWrite _ _ _ _) as [r env1]. reflexivity.
Qed.

(** X11: when the peer's close frame closes the connection, [OnClose] is the
    last thing to happen and it is told the code and the reason the peer
    sent, unchanged, whatever code is answered: the two-byte big-endian code
    and the bytes after it, the byte itself and no reason for a one-byte
    payload, code 0 and no reason for an empty one.  [emitClose] always
    returns the normal-closure code as its error. *)
Theorem emitClose_reports_peer_close (c : Conn) (env : Env) :
  closed c = 0 ->
  let told payload code reason :=
    exists tr, trace (snd (emitClose payload c env))
               = tr ++ [EvOnClose (sock c) (Some (ECloseError code reason))] in
  (forall code reason, 0 <= code < 65536 ->
     told (BigEndian_PutUint16 code ++ reason) code reason)
  /\ (forall b, told [b] (Z_of_byte b) [])
  /\ told [] 0 []
  /\ forall payload,
       fst (fst (emitClose payload c env)) = EStatusCode CloseNormalClosure
       /\ closed (snd (fst (emitClose payload c env))) = 1.
Proof.
  intros H0 told. subst told. cbn beta.
  split; [|split; [|split]].
  - intros code reason Hcode. rewrite emitClose_open by exact H0.
    cbn [snd emit trace]. eexists. f_equal. f_equal. f_equal.
    unfold BigEndian_PutUint16. cbn [app emitClose_codes fst snd].
    f_equal. f_equal.
    change [byte_of_Z (Z.shiftr code 8); byte_of_Z code]
      with (BigEndian_PutUint16 code ++ []).
    apply BigEndian_Uint16_Put. exact Hcode.
  - intros b. rewrite emitClose_open by exact H0.
    cbn [snd emit trace emitClose_codes fst]. eexists. reflexivity.
  - rewrite emitClose_open by exact H0.
    cbn [snd emit trace emitClose_codes fst]. eexists. reflexivity.
  - intros payload. rewrite emitClose_open by exact H0. split; reflexivity.
Qed.

(** X12: a text message that is not valid UTF-8, written with checking enabled
    to an open connection, is never put on the wire: [WriteMessage] returns
    the unsupported-data error, the connection is closed with that code in
    its close frame, and [OnClose] is told of the text-encoding error. *)
Theorem WriteMessage_invalid_text_closes (p : list byte) (c : Conn) (env : Env) :
  closed c = 0 ->
  CheckUtf8Enabled (config c) = true ->
  utf8_Valid p = false ->
  let unsupported := EInternal CloseUnsupportedData (Some ErrTextEncoding) in
  WriteMessage OpcodeText p c env
  = (Some unsupported, set_closed c 1,
     emit (EvOnClose (sock c) (Some ErrTextEncoding))
       (snd (net_op (EvSetDeadline (sock c) DeadlineBoth)
               (snd (doWrite (set_closed c 1) OpcodeCloseConnection
                       (emitError_content unsupported) env)))))
  /\ fst (emitError_response unsupported) = CloseUnsupportedData.
Proof.
  intros H0 Hchk Hbad unsupported. split; [|reflexivity].
  unfold WriteMessage, isClosed. rewrite H0. cbn [Z.eqb].
  assert (D : doWrite c OpcodeText p env = (Some unsupported, env)).
  { unfold doWrite, genFrame, genFrame_path, isTextValid.
    rewrite Hchk, Hbad. reflexivity. }
  rewrite D, emitError_open by exact H0. reflexivity.
Qed.

End Callback.

Lemma emitClose_reports_peer_close_witness :
  let c := sample_conn 9 false (sample_config true 0 100) in
  exists tr,
    trace (snd (@emitClose sampleX (BigEndian_PutUint16 1005 ++ [x62; x79; x65]) c Env0))
    = tr ++ [EvOnClose 9 (Some (ECloseError 1005 [x62; x79; x65]))].
Proof.
  intros c.
  destruct (@emitClose_reports_peer_close sampleX c Env0 eq_refl) as (H & _).
  apply (H 1005 [x62; x79; x65]). lia.
Defined.

Lemma WriteMessage_invalid_text_closes_witness :
  let c := sample_conn 9 false (sample_config true 0 100) in
  fst (fst (@WriteMessage sampleX OpcodeText [xc3; x28] c Env0))
  = Some (EInternal CloseUnsupportedData (Some ErrTextEncoding)).
Proof.
  intros c.
  destruct (@WriteMessage_invalid_text_closes sampleX [xc3; x28] c Env0
              eq_refl eq_refl eq_refl) as (H & _).
  rewrite H. reflexivity.
Defined.

(** ** One message, one write *)

Section OneWrite.

Context {X : Externals}.

(** X13: a [WriteMessage] that returns nil has built one frame, written exactly
    that frame to the socket in a single write and then released its
    buffer; nothing else happened and the connection is as it was. *)
Theorem WriteMessage_success_is_one_write (op : Opcode) (p : list byte)
    (c : Conn) (env : Env) (c' : Conn) (env' : Env) :
  WriteMessage op p c env = (None, c', env') ->
  c' = c
  /\ exists frame env1,
       genFrame c op p env = (Ok frame, env1)
       /\ trace env' = trace env1 ++ [EvWrite (sock c) (bbytes frame);
                                      EvPut (bid frame)]
       /\ netOps env' = S (netOps env).
Proof.
  unfold WriteMessage. destruct (isClosed c); [intros [=]|].
  unfold doWrite.
  destruct (genFrame c op p env) as [[frame|e] env1] eqn:G.
  - unfold WriteN, net_op, pool_Put, emit. cbn [fst snd trace].
    destruct (netResult (netOps env1)) as [e|] eqn:N.
    + match goal with
      | |- context [emitError (Some e) c ?en] => destruct (emitError (Some e) c en)
      end. intros [=].
    + cbn [emitError]. intros H.
      apply pair_equal_spec in H. destruct H as [H <-].
      apply pair_equal_spec in H. destruct H as [_ <-].
      split; [reflexivity|]. exists frame, env1.
      split; [reflexivity|]. cbn [trace netOps].
      split; [rewrite <- app_assoc; reflexivity|].
      pose proof (genFrame_effect _ _ _ _ G) as (Ho & _). rewrite Ho. reflexivity.
  - destruct (emitError (Some e) c env1). intros [=].
Qed.

(** X14: on the plain path the buffer [genFrame] asks the pool for has exactly
    the size of the frame it returns: header and payload, masked or not. *)
Theorem plain_frame_fills_its_buffer (c : Conn) (op : Opcode) (p : list byte)
    (env : Env) (frame : Buffer) (env' : Env) :
  compress_condition c op p = false ->
  genFrame c op p env = (Ok frame, env') ->
  trace env' = trace env ++ [EvGet (bid frame) (len (bbytes frame))]
  /\ len (bbytes frame)
     = len p + len (fst (fst (GenerateHeader (isServer c) true false op (len p) env))).
Proof.
  intros Hcc. unfold genFrame. rewrite genFrame_path_cases, Hcc.
  destruct (Opcode_eqb op OpcodeText && negb (isTextValid c op p)); [intros [=]|].
  unfold genFrame_plain. destruct (_ >? _); [intros [=]|].
  destruct (GenerateHeader (isServer c) true false op (len p) env)
    as [[h k] e1] eqn:G.
  pose proof (GenerateHeader_env _ _ _ _ _ _ G) as (Ht & _).
  unfold pool_Get. cbn [bbytes buf_set fst]. intros H.
  apply pair_equal_spec in H. destruct H as [H <-]. injection H as <-.
  cbn [trace bid bbytes app].
  assert (L : len (if negb (isServer c)
                   then firstn (List.length h) (h ++ p)
                        ++ MaskXOR (skipn (List.length h) (h ++ p)) k
                   else h ++ p)
              = len p + len h).
  { unfold len. destruct (negb (isServer c)).
    - rewrite length_app, length_firstn. unfold MaskXOR.
      rewrite MaskXOR_from_length, length_skipn, length_app. lia.
    - rewrite length_app. lia. }
  cbn [bid bbytes buf_set]. rewrite L, Ht. split; reflexivity.
Qed.

End OneWrite.

Lemma WriteMessage_success_is_one_write_witness :
  let c := sample_conn 2 false (sample_config false 0 100) in
  trace (snd (@WriteMessage sampleX OpcodeBinary [x07] c Env0))
  = [EvGet 0 3; EvWrite 2 [x82; x01; x07]; EvPut 0].
Proof.
  intros c.
  destruct (@WriteMessage_success_is_one_write sampleX OpcodeBinary [x07] c Env0
              c (snd (@WriteMessage sampleX OpcodeBinary [x07] c Env0)) eq_refl)
    as (_ & frame & env1 & G & Ht & _).
  rewrite Ht. injection G as <- <-. reflexivity.
Defined.

Lemma plain_frame_fills_its_buffer_witness :
  let c := {| sock := 0; isServer := false; compressEnabled := false;
              config := sample_config false 0 100; closed := 0;
              writeQueue := [] |} in
  trace (snd (@genFrame sampleX c OpcodeBinary [x07; x08] Env0)) = [EvGet 0 8].
Proof.
  intros c.
  destruct (@genFrame sampleX c OpcodeBinary [x07; x08] Env0) as [[frame|e] env'] eqn:G;
    [|discriminate G].
  destruct (@plain_frame_fills_its_buffer sampleX c OpcodeBinary [x07; x08] Env0
              frame env' eq_refl G) as (Ht & _).
  cbn [snd]. rewrite Ht. injection G as <- _. reflexivity.
Defined.
